(** * petri-js: the simulation core, embedded and verified

    The development follows the three source files of the core:
    - [actions.js]   : the two action creators [init] and [fireTransition];
    - [reducers.js]  : the reducers [model], [marking], [sequence] and their
                       combination under the undo/redo history wrapper;
    - [petrinet.js]  : the default firing semantics ([defaultIsFireable],
                       [defaultFire]) and the [PetriNet] class (constructor,
                       [marking], [sequence], [fire], [undo], [redo]).

    Modelling choices.
    - A marking, and the precondition / postcondition tables of a transition,
      are plain JavaScript data objects: finite maps from property names to
      numbers ([gmap string Z]).  Token counts and arc weights are integers in
      the range where JavaScript numbers are exact.  Objects with a prototype
      of their own, and the property names that collide with members of
      [Object.prototype] ([__proto__], [hasOwnProperty]), are outside the
      model.
    - [throw] is modelled by the [Throws] constructor of [Completion]; the
      two [throw new Error(...)] sites of [defaultFire] are the two
      constructors of [Error], and [message] gives back the text thrown.
    - The binding of a transition is opaque to the core: it is a type
      parameter, and [null] is [None].
    - The packages [redux] and [redux-undo] are not part of the sources:
      the store, the combination of the reducers and the history wrapper
      are modelled from the specification, and marked as such. *)

From stdpp Require Import gmap strings list fin_maps.
From Stdlib Require Import ZArith Lia.

Local Open Scope Z_scope.

(** ** Data model *)

Abbreviation Marking := (gmap string Z).

Record Transition := {
  name           : string;
  preconditions  : gmap string Z;
  postconditions : gmap string Z;
}.

Record Model := {
  places      : list string;
  transitions : list Transition;
  m0          : Marking;
}.

#[global] Instance Transition_eq_dec : EqDecision Transition.
Proof. solve_decision. Defined.

#[global] Instance Model_eq_dec : EqDecision Model.
Proof. solve_decision. Defined.

(** ** Exceptions *)

Inductive Error :=
  | UnknownPlaceError (p : string) (tname : string)
  | NotFireableError (tname : string).

(** The text passed to [new Error] at each of the two [throw] sites. *)
Definition message (e : Error) : string :=
  match e with
  | UnknownPlaceError p tname =>
      "'" +:+ p +:+ "' is precondition of '" +:+ tname
          +:+ "' but doesn't appear in marking '[object Object]'."
  | NotFireableError tname => "'" +:+ tname +:+ "' is not fireable"
  end.

Inductive Completion (A : Type) :=
  | Returns (a : A)
  | Throws (e : Error).
Arguments Returns {A} a.
Arguments Throws {A} e.

(** ** Object helpers *)

(** [Object.keys(o)], also the keys a [for ... in] loop visits.  The keys
    come in the order of the map rather than in the order of insertion; the
    loops of this file complete in the same way whatever the order. *)
Definition Object_keys (o : gmap string Z) : list string := (map_to_list o).*1.

(** [o.hasOwnProperty(p)] *)
Definition hasOwnProperty (o : gmap string Z) (p : string) : bool :=
  bool_decide (is_Some (o !! p)).

(** [x || 0] on a number that may be [undefined]. *)
Definition or_zero (x : option Z) : Z :=
  match x with
  | Some v => if decide (v = 0) then 0 else v
  | None => 0
  end.

(** [a >= b] and [a < b] on numbers that may be [undefined]: a comparison
    with [undefined] is [false]. *)
Definition js_ge (a b : option Z) : bool :=
  match a, b with
  | Some x, Some y => bool_decide (y ≤ x)
  | _, _ => false
  end.

Definition js_lt (a b : option Z) : bool :=
  match a, b with
  | Some x, Some y => bool_decide (x < y)
  | _, _ => false
  end.

(** ** Default semantics (petrinet.js) *)

Definition defaultIsFireable (t : Transition) (marking : Marking) : bool :=
  forallb
    (λ p, js_ge (marking !! p) (preconditions t !! p))
    (Object_keys (preconditions t)).

(** The value assigned to [nextMarking[p]]. *)
Definition next_tokens (t : Transition) (marking : Marking) (p : string) : Z :=
  or_zero (marking !! p) - or_zero (preconditions t !! p)
    + or_zero (postconditions t !! p).

(** The body of the [for (const p in marking)] loop, run on the keys still to
    be visited. *)
Fixpoint defaultFire_loop (t : Transition) (marking : Marking)
    (keys : list string) (nextMarking : Marking) : Completion Marking :=
  match keys with
  | [] => Returns nextMarking
  | p :: keys' =>
      if negb (hasOwnProperty marking p) then
        Throws (UnknownPlaceError p (name t))
      else
        let nextMarking := <[p := next_tokens t marking p]> nextMarking in
        if js_lt (nextMarking !! p) (Some 0) then
          Throws (NotFireableError (name t))
        else defaultFire_loop t marking keys' nextMarking
  end.

Definition defaultFire (t : Transition) (marking : Marking) : Completion Marking :=
  defaultFire_loop t marking (Object_keys marking) ∅.

(** Sum of the tokens (or of the weights) held by an object. *)
Definition total (o : gmap string Z) : Z :=
  map_fold (λ _ v acc, v + acc) 0 o.

(** Sum, over the keys of [o], of the weight a table [w] gives them
    ([w[p] || 0]). *)
Definition weight_over (w o : gmap string Z) : Z :=
  map_fold (λ p _ acc, or_zero (w !! p) + acc) 0 o.

(** The marking [defaultFire] builds when no count goes negative. *)
Definition fired (t : Transition) (marking : Marking) : Marking :=
  map_imap
    (λ p v, Some (v - or_zero (preconditions t !! p)
                    + or_zero (postconditions t !! p)))
    marking.

(** The model of the README and of the example application. *)
Definition t1 : Transition :=
  {| name := "t1"; preconditions := {[ "p0" := 1 ]}; postconditions := {[ "p1" := 2 ]} |}.
Definition t0 : Transition :=
  {| name := "t0"; preconditions := {[ "p1" := 1 ]}; postconditions := {[ "p0" := 1 ]} |}.
Definition example_model : Model :=
  {| places := ["p0"; "p1"]; transitions := [t1; t0];
     m0 := {[ "p0" := 1; "p1" := 0 ]} |}.

(** A transition that consumes from [p0] and produces into a place [p2] the
    marking does not have. *)
Definition t_outside : Transition :=
  {| name := "t2"; preconditions := {[ "p0" := 1 ]};
     postconditions := {[ "p2" := 1 ]} |}.

(** A transition whose precondition names a place the marking lacks. *)
Definition t_unknown : Transition :=
  {| name := "t3"; preconditions := {[ "q" := 1 ]}; postconditions := ∅ |}.


(** ** History frames *)

(** Modelled from the spec: the history frame the wrapper of the
    [redux-undo] package keeps for a slice: the prior values of the slice,
    oldest first, its current value, and the undone values, next to redo
    first. *)
Record History (A : Type) := {
  past    : list A;
  present : A;
  future  : list A;
}.
Arguments past {A} _.
Arguments present {A} _.
Arguments future {A} _.

(** Modelled from the spec: a frame with nothing to undo or to redo. *)
Definition createHistory {A} (present : A) : History A :=
  {| past := []; present := present; future := [] |}.

(** Modelled from the spec: the [Undo] rule of the history wrapper
    ([undoable] is imported from the [redux-undo] package, which is not part
    of the sources): if [past] is non-empty, pop its last entry into
    [present] and push the old [present] onto the front of [future]; if
    empty, no-op. *)
Definition undo {A} (h : History A) : History A :=
  match last (past h) with
  | Some previous =>
      {| past := removelast (past h); present := previous;
         future := present h :: future h |}
  | None => h
  end.

(** Modelled from the spec: the [Redo] rule of the history wrapper, symmetric
    to [undo]: pop the first entry of [future] into [present] and push the
    old [present] onto [past]. *)
Definition redo {A} (h : History A) : History A :=
  match future h with
  | next :: future' =>
      {| past := past h ++ [present h]; present := next; future := future' |}
  | [] => h
  end.

(** Modelled from the spec: the [ClearHistory] rule of the history wrapper:
    empty [past] and [future], retaining [present]. *)
Definition clearHistory {A} (h : History A) : History A :=
  createHistory (present h).

(** The oldest value a frame remembers. *)
Definition oldest {A} (h : History A) : A := hd (present h) (past h).

(** The frame reached by undoing as long as there is something to undo: the
    oldest value is the present, every later one waits in [future]. *)
Definition rewind {A} (h : History A) : History A :=
  match past h with
  | [] => h
  | oldest :: later =>
      {| past := []; present := oldest;
         future := later ++ present h :: future h |}
  end.

(** The frame reached by redoing as long as there is something to redo. *)
Definition fastforward {A} (h : History A) : History A :=
  match last (future h) with
  | Some newest =>
      {| past := past h ++ present h :: removelast (future h);
         present := newest; future := [] |}
  | None => h
  end.

(** ** Actions, reducers, store and facade

    [Binding] is the type of the bindings a custom [chooseBinding] produces;
    the core never looks inside one. *)

Section Core.
Context {Binding : Type} `{EqDecision Binding}.

(** *** Actions (actions.js)

    [INIT] and [FIRE] are the two action types of [actionTypes]; [UNDO],
    [REDO] and [CLEAR_HISTORY] are the actions made by [ActionCreators.undo],
    [.redo] and [.clearHistory]; [OTHER] stands for any action of another
    type, such as the one the store sends itself when it is created. *)
Inductive Action :=
  | INIT (model : Model)
  | FIRE (transition : Transition) (binding : option Binding) (nextMarking : Marking)
  | UNDO
  | REDO
  | CLEAR_HISTORY
  | OTHER (type : string).

Definition init (model : Model) : Action := INIT model.

Definition fireTransition (transition : Transition) (marking : Marking)
    (binding : option Binding)
    (fireFunction : Transition → Marking → option Binding → Completion Marking)
    : Completion Action :=
  match fireFunction transition marking binding with
  | Returns nextMarking => Returns (FIRE transition binding nextMarking)
  | Throws e => Throws e
  end.

(** *** Reducers (reducers.js) *)

(** An entry of the fired sequence. *)
Record Entry := {
  transition : string;
  binding    : option Binding;
}.

#[global] Instance Entry_eq_dec : EqDecision Entry.
Proof. solve_decision. Defined.

Definition initialModel : Model := {| places := []; transitions := []; m0 := ∅ |}.

Definition model (state : Model) (action : Action) : Model :=
  match action with
  | INIT model => model
  | _ => state
  end.

Definition marking (state : Marking) (action : Action) : Marking :=
  match action with
  | INIT model => m0 model
  | FIRE _ _ nextMarking => nextMarking
  | _ => state
  end.

Definition sequence (state : list Entry) (action : Action) : list Entry :=
  match action with
  | INIT _ => []
  | FIRE transition binding _ =>
      state ++ [ {| transition := name transition; binding := binding |} ]
  | _ => state
  end.

(** *** History wrapper *)

(** Modelled from the spec: the history wrapper [undoable] of the
    [redux-undo] package, which is not part of the sources.  On any action
    other than [Undo] / [Redo] / [ClearHistory] it computes
    [newPresent = R(present, action)]; if [newPresent] differs from
    [present] it pushes the old [present] onto [past] and clears [future];
    if unchanged, the state is unchanged. *)
Definition undoable {A} `{EqDecision A} (reducer : A → Action → A)
    (history : History A) (action : Action) : History A :=
  match action with
  | UNDO => undo history
  | REDO => redo history
  | CLEAR_HISTORY => clearHistory history
  | _ =>
      let newPresent := reducer (present history) action in
      if decide (newPresent = present history) then history
      else {| past := past history ++ [present history];
              present := newPresent; future := [] |}
  end.

(** *** The combined reducer and the store *)

Record State := {
  state_model    : Model;
  state_marking  : History Marking;
  state_sequence : History (list Entry);
}.

(** The default export of reducers.js,
    [combineReducers({ model, marking: undoable(marking),
                       sequence: undoable(sequence) })].
    Modelled from the spec: [combineReducers], of the [redux] package, makes
    the reducer that runs every reducer on its own slice. *)
Definition reducers (state : State) (action : Action) : State :=
  {| state_model    := model (state_model state) action;
     state_marking  := undoable marking (state_marking state) action;
     state_sequence := undoable sequence (state_sequence state) action |}.

(** The state of a store that has not been sent any action yet: every
    reducer starts from the default value of its [state] argument, wrapped
    in a fresh frame for the two slices under [undoable]. *)
Definition initialState : State :=
  {| state_model    := initialModel;
     state_marking  := createHistory ∅;
     state_sequence := createHistory [] |}.

(** Modelled from the spec: the store of the [redux] package, which holds
    the state and changes it only by running the reducer on a dispatched
    action.  The journal lists the actions that went through [dispatch],
    oldest first; no code reads it, it is kept to state which actions
    reached the store. *)
Record Store := {
  getState   : State;
  dispatched : list Action;
}.

Definition createStore : Store :=
  {| getState := initialState; dispatched := [] |}.

Definition dispatch (action : Action) (store : Store) : Store :=
  {| getState   := reducers (getState store) action;
     dispatched := dispatched store ++ [action] |}.

(** *** The PetriNet class (petrinet.js) *)

Record FireSemantics := {
  isFireable    : Transition → Marking → bool;
  fire          : Transition → Marking → option Binding → Completion Marking;
  chooseBinding : option (Transition → Marking → option Binding);
}.

(** [options.fireSemantics]: each function may be left out. *)
Record CustomFireSemantics := {
  custom_isFireable    : option (Transition → Marking → bool);
  custom_fire          : option (Transition → Marking → option Binding
                                 → Completion Marking);
  custom_chooseBinding : option (Transition → Marking → option Binding);
}.

(** The default value [{}] of [options.fireSemantics]. *)
Definition no_custom : CustomFireSemantics :=
  {| custom_isFireable := None; custom_fire := None;
     custom_chooseBinding := None |}.

(** The fields of a simulator that the core uses. *)
Record PetriNet := {
  fireSemantics : FireSemantics;
  store         : Store;
}.

(** A method of the class: it runs on [this], returns or throws, and leaves
    [this] in a new state. *)
Definition Method (A : Type) : Type := PetriNet → Completion A * PetriNet.

#[global] Instance Method_ret : MRet Method :=
  λ A a this, (Returns a, this).

#[global] Instance Method_bind : MBind Method :=
  λ A B k m this,
    match m this with
    | (Returns a, this') => k a this'
    | (Throws e, this') => (Throws e, this')
    end.

(** Evaluating an expression that may throw. *)
Definition eval {A} (c : Completion A) : Method A :=
  λ this, (c, this).

(** [this.fireSemantics] *)
Definition this_fireSemantics : Method FireSemantics :=
  λ this, (Returns (fireSemantics this), this).

(** [this.store.getState()] *)
Definition this_store_getState : Method State :=
  λ this, (Returns (getState (store this)), this).

(** [this.store.dispatch(action)] *)
Definition this_store_dispatch (action : Action) : Method unit :=
  λ this,
    (Returns tt,
     {| fireSemantics := fireSemantics this;
        store := dispatch action (store this) |}).

(** The part of the constructor that concerns the core: the default options
    and the creation of the store. *)
Definition PetriNet_constructor (model : Model)
    (customFireSemantics : CustomFireSemantics) : PetriNet :=
  {| fireSemantics :=
       {| isFireable := default defaultIsFireable
                          (custom_isFireable customFireSemantics);
          fire := default (λ t marking _, defaultFire t marking)
                          (custom_fire customFireSemantics);
          chooseBinding := custom_chooseBinding customFireSemantics |};
     store := dispatch CLEAR_HISTORY (dispatch (init model) createStore) |}.

(** Returns the current marking of the model. *)
Definition PetriNet_marking (this : PetriNet) : Marking :=
  present (state_marking (getState (store this))).

(** Returns the sequence of transitions fired so far. *)
Definition PetriNet_sequence (this : PetriNet) : list Entry :=
  present (state_sequence (getState (store this))).

(** Attempt to fire the given transition. *)
Definition PetriNet_fire (transition : Transition) : Method unit :=
  state ← this_store_getState;
  let marking := present (state_marking state) in
  semantics ← this_fireSemantics;
  let binding :=
    match chooseBinding semantics with
    | Some choose => choose transition marking
    | None => None
    end in
  action ← eval (fireTransition transition marking binding (fire semantics));
  this_store_dispatch action.

(** Undo the last transition firing. *)
Definition PetriNet_undo : Method unit := this_store_dispatch UNDO.

(** Redo the last transition firing. *)
Definition PetriNet_redo : Method unit := this_store_dispatch REDO.

(** What a call does: how it completes, and the state it leaves [this] in. *)
Definition outcome {A} (m : Method A) (this : PetriNet) : Completion A :=
  (m this).1.

Definition after {A} (m : Method A) (this : PetriNet) : PetriNet :=
  (m this).2.

(** Calling a method [n] times in a row. *)
Fixpoint times (n : nat) (m : Method unit) : Method unit :=
  match n with
  | O => mret tt
  | S n' => m ≫= λ _, times n' m
  end.

(** Firing the transitions of a list, one after the other. *)
Fixpoint fire_all (ts : list Transition) : Method unit :=
  match ts with
  | [] => mret tt
  | t :: ts' => PetriNet_fire t ≫= λ _, fire_all ts'
  end.

End Core.

Arguments Action : clear implicits.
Arguments Entry : clear implicits.
Arguments State : clear implicits.
Arguments Store : clear implicits.
Arguments FireSemantics : clear implicits.
Arguments CustomFireSemantics : clear implicits.
Arguments PetriNet : clear implicits.
Arguments Method : clear implicits.

(** ** A custom semantics

    A semantics with a transition that changes nothing: its [fire] hands
    back the marking it was given for the transition named [skip], and is
    the default rule on every other transition. *)
Definition skip_fire (t : Transition) (marking : Marking) (_ : option unit)
    : Completion Marking :=
  if decide (name t = "skip") then Returns marking else defaultFire t marking.

Definition skip_semantics : CustomFireSemantics unit :=
  {| custom_isFireable := None; custom_fire := Some skip_fire;
     custom_chooseBinding := None |}.

Definition t_skip : Transition :=
  {| name := "skip"; preconditions := ∅; postconditions := ∅ |}.

(** ** Two simulators on the example model *)

Definition example_net : PetriNet unit :=
  PetriNet_constructor example_model no_custom.

Definition skip_net : PetriNet unit :=
  PetriNet_constructor example_model skip_semantics.

(** ** Runs of the simulator

    The collaborators of the core call [fire], [undo] and [redo] from event
    handlers, one event after the other: a call that throws ends its own
    handler and leaves the simulator as it is for the next event. *)

Section Runs.
Context {Binding : Type} `{EqDecision Binding}.

Inductive Call :=
  | CallFire (t : Transition)
  | CallUndo
  | CallRedo.

Definition call (c : Call) : Method Binding unit :=
  match c with
  | CallFire t => PetriNet_fire t
  | CallUndo => PetriNet_undo
  | CallRedo => PetriNet_redo
  end.

(** The simulator after a list of calls, made in order. *)
Definition run (cs : list Call) (this : PetriNet Binding) : PetriNet Binding :=
  fold_left (λ this c, after (call c) this) cs this.

(** All the values a frame holds, oldest first. *)
Definition frames {A} (h : History A) : list A :=
  past h ++ present h :: future h.

End Runs.

(** ** The graph drawn by [render] (petrinet.js)

    [render] first turns the model into the vertices and the edges of a
    graph, then merges the vertices into the data already bound to the
    drawing; only then does it call the drawing library.  These three steps
    are embedded here. *)

(** [array.reduce(f)] without an initial value: it throws a [TypeError] on
    an empty array ([None]), and folds from the first element otherwise. *)
Definition reduce {A} (f : A → A → A) (array : list A) : option A :=
  match array with
  | [] => None
  | first :: rest => Some (fold_left f rest first)
  end.

Module Vertex.

(** A vertex of the graph.  [data] stands for the fields spread from a
    transition ([...transition]) and for the [fire] closure that fires it; a
    place has none.  [layout] stands for the properties the drawing library
    adds to the vertices bound to the drawing (position, velocity); the code
    never reads them. *)
Record t (Layout : Type) := {
  id     : string;
  type   : string;
  data   : option Transition;
  layout : option Layout;
}.
Arguments id {Layout} _.
Arguments type {Layout} _.
Arguments data {Layout} _.
Arguments layout {Layout} _.

End Vertex.

Module Edge.

(** An edge of the graph; [label] is the weight looked up in the
    preconditions or the postconditions of the transition. *)
Record t := {
  id     : string;
  source : string;
  target : string;
  label  : option Z;
}.

End Edge.

Section Render.
Context {Layout : Type}.

(** [const vertices = model.places.map(...).concat(model.transitions.map(...))] *)
Definition render_vertices (model : Model) : list (Vertex.t Layout) :=
  map (λ place, {| Vertex.id := place; Vertex.type := "place";
                   Vertex.data := None; Vertex.layout := None |})
      (places model)
  ++ map (λ transition,
            {| Vertex.id := name transition; Vertex.type := "transition";
               Vertex.data := Some transition; Vertex.layout := None |})
         (transitions model).

(** The edges of one transition: the function mapped over
    [model.transitions]. *)
Definition transition_edges (transition : Transition) : list Edge.t :=
  let preconditions :=
    map (λ place,
           {| Edge.id := place +:+ name transition;
              Edge.source := place;
              Edge.target := name transition;
              Edge.label := preconditions transition !! place |})
        (Object_keys (preconditions transition)) in
  let postconditions :=
    map (λ place,
           {| Edge.id := name transition +:+ place;
              Edge.source := name transition;
              Edge.target := place;
              Edge.label := postconditions transition !! place |})
        (Object_keys (postconditions transition)) in
  preconditions ++ postconditions.

(** [const edges = model.transitions.map(...).reduce(...)] *)
Definition render_edges (model : Model) : option (list Edge.t) :=
  reduce (λ partialResult e, partialResult ++ e)
         (map transition_edges (transitions model)).

(** [for (const prop in vertex) { prev[prop] = vertex[prop] }]: every
    property of the new vertex is written over the bound one, which keeps
    the properties the new vertex does not have. *)
Definition assign (prev vertex : Vertex.t Layout) : Vertex.t Layout :=
  {| Vertex.id := Vertex.id vertex;
     Vertex.type := Vertex.type vertex;
     Vertex.data := match Vertex.data vertex with
                    | Some transition => Some transition
                    | None => Vertex.data prev
                    end;
     Vertex.layout := match Vertex.layout vertex with
                      | Some l => Some l
                      | None => Vertex.layout prev
                      end |}.

(** The body of the loop over [vertices]: the first bound vertex with the
    same id is updated in place; without one the new vertex is pushed. *)
Definition update_vertex (updatedVertices : list (Vertex.t Layout))
    (vertex : Vertex.t Layout) : list (Vertex.t Layout) :=
  match list_find (λ v, Vertex.id v = Vertex.id vertex) updatedVertices with
  | Some (i, prev) => <[i := assign prev vertex]> updatedVertices
  | None => updatedVertices ++ [vertex]
  end.

(** The whole loop, from the data bound to the drawing. *)
Definition update_vertices (updatedVertices vertices : list (Vertex.t Layout))
    : list (Vertex.t Layout) :=
  fold_left update_vertex vertices updatedVertices.

End Render.

(** ** Sequences that grow by one entry

    A list of sequences in which every sequence is the one before it with
    one more entry at its end. *)
Definition chain {E} (l : list (list E)) : Prop :=
  ∀ i x y, l !! i = Some x → l !! S i = Some y → y ≠ [] ∧ removelast y = x.

Example fire_t1 :
  defaultFire t1 (m0 example_model) = Returns {[ "p0" := 0; "p1" := 2 ]}.
Proof. vm_compute. reflexivity. Qed.

(** ** Facts about the object helpers *)

Lemma or_zero_default (x : option Z) : or_zero x = default 0 x.
Proof. destruct x as [v|]; simpl; [case_decide; lia | done]. Qed.

Lemma elem_of_Object_keys (o : gmap string Z) (p : string) :
  p ∈ Object_keys o ↔ is_Some (o !! p).
Proof.
  unfold Object_keys. rewrite list_elem_of_fmap. split.
  - intros [[q v] [-> Hin]]. apply elem_of_map_to_list in Hin. by exists v.
  - intros [v Hv]. exists (p, v). split; [done | by apply elem_of_map_to_list].
Qed.

Lemma hasOwnProperty_true (o : gmap string Z) (p : string) :
  hasOwnProperty o p = true ↔ is_Some (o !! p).
Proof. unfold hasOwnProperty. by rewrite bool_decide_eq_true. Qed.

Lemma total_empty : total ∅ = 0.
Proof. unfold total. by rewrite map_fold_empty. Qed.

Lemma total_insert (o : gmap string Z) (p : string) (v : Z) :
  o !! p = None → total (<[p := v]> o) = v + total o.
Proof.
  intros Hp. unfold total. rewrite map_fold_insert_L; [done | | done].
  intros; lia.
Qed.

Lemma total_delete (o : gmap string Z) (p : string) (v : Z) :
  o !! p = Some v → total (delete p o) = total o - v.
Proof.
  intros Hp. rewrite <- (insert_delete_id o p v) at 2 by done.
  rewrite total_insert by apply lookup_delete_eq. lia.
Qed.


Lemma weight_over_insert (w o : gmap string Z) (p : string) (v : Z) :
  o !! p = None →
  weight_over w (<[p := v]> o) = or_zero (w !! p) + weight_over w o.
Proof.
  intros Hp. unfold weight_over. rewrite map_fold_insert_L; [done | | done].
  intros; lia.
Qed.

Lemma weight_over_ext (w w' o : gmap string Z) :
  (∀ p, is_Some (o !! p) → w !! p = w' !! p) →
  weight_over w o = weight_over w' o.
Proof.
  induction o as [|p v o Hp IH] using map_ind; intros Hagree.
  - done.
  - rewrite !weight_over_insert by done.
    rewrite (Hagree p) by (rewrite lookup_insert_eq; eauto).
    rewrite IH; [done |].
    intros q Hq. apply Hagree. rewrite lookup_insert_ne; [done |].
    intros ->. rewrite Hp in Hq. by destruct Hq.
Qed.

(** When every key of the table is a key of the object, nothing of the table
    is lost. *)
Lemma weight_over_total (w o : gmap string Z) :
  dom w ⊆ dom o → weight_over w o = total w.
Proof.
  revert w. induction o as [|p v o Hp IH] using map_ind; intros w Hsub.
  - rewrite dom_empty_L in Hsub.
    assert (w = ∅) as ->.
    { apply dom_empty_iff_L, elem_of_equiv_empty_L. intros q Hq.
      by apply Hsub, elem_of_empty in Hq. }
    done.
  - rewrite weight_over_insert by done.
    rewrite (weight_over_ext w (delete p w)).
    + rewrite IH.
      * destruct (w !! p) as [x|] eqn:Hw; simpl.
        -- rewrite (total_delete w p x) by done. case_decide; lia.
        -- by rewrite delete_id.
      * rewrite dom_delete_L. rewrite dom_insert_L in Hsub.
        intros q [Hq Hne]%elem_of_difference.
        apply Hsub, elem_of_union in Hq as [Hq | Hq]; done.
    + intros q Hq. rewrite lookup_delete_ne; [done |].
      intros ->. rewrite Hp in Hq. by destruct Hq.
Qed.

Lemma total_imap (g : string → Z → Z) (o : gmap string Z) :
  total (map_imap (λ p v, Some (g p v)) o)
  = map_fold (λ p v acc, g p v + acc) 0 o.
Proof.
  induction o as [|p v o Hp IH] using map_ind.
  - by rewrite map_imap_empty, total_empty, map_fold_empty.
  - rewrite (map_imap_insert_Some _ _ _ _ (g p v)) by done.
    rewrite total_insert by (by rewrite map_lookup_imap, Hp).
    rewrite map_fold_insert_L; [by rewrite IH | | done].
    intros; lia.
Qed.

Lemma fold_tokens (w1 w2 : gmap string Z) (o : gmap string Z) :
  map_fold (λ p v acc, (v - or_zero (w1 !! p) + or_zero (w2 !! p)) + acc) 0 o
  = total o - weight_over w1 o + weight_over w2 o.
Proof.
  induction o as [|p v o Hp IH] using map_ind.
  - by rewrite map_fold_empty.
  - rewrite map_fold_insert_L; [| intros; lia | done].
    rewrite IH, total_insert, !weight_over_insert by done. lia.
Qed.

(** ** The loop of [defaultFire] *)

(** On keys that the marking owns, the loop either returns the accumulator
    extended with the new count of every key visited, all of them
    non-negative, or throws at a key whose count would be negative. *)
Lemma defaultFire_loop_spec (t : Transition) (marking : Marking)
    (keys : list string) (acc : Marking) :
  (∀ p, p ∈ keys → is_Some (marking !! p)) →
  match defaultFire_loop t marking keys acc with
  | Returns next =>
      (∀ p, p ∈ keys → next !! p = Some (next_tokens t marking p))
      ∧ (∀ p, p ∉ keys → next !! p = acc !! p)
      ∧ (∀ p, p ∈ keys → 0 ≤ next_tokens t marking p)
  | Throws e =>
      e = NotFireableError (name t)
      ∧ ∃ p, p ∈ keys ∧ next_tokens t marking p < 0
  end.
Proof.
  revert acc. induction keys as [|k keys IH]; intros acc Hown.
  - simpl. split; [| split].
    + intros p Hin. by apply elem_of_nil in Hin.
    + reflexivity.
    + intros p Hin. by apply elem_of_nil in Hin.
  - cbn [defaultFire_loop].
    assert (hasOwnProperty marking k = true) as ->.
    { apply hasOwnProperty_true, Hown. left. }
    cbn [negb]. rewrite lookup_insert_eq. cbn [js_lt].
    case_bool_decide as Hneg.
    + split; [done |]. exists k. split; [left | done].
    + specialize (IH (<[k := next_tokens t marking k]> acc)).
      destruct (defaultFire_loop t marking keys _) as [next | e].
      * destruct IH as (Hin & Hout & Hpos); [intros p Hp; apply Hown; by right |].
        split; [| split].
        -- intros p [-> | Hp]%elem_of_cons; [| by apply Hin].
           destruct (decide (k ∈ keys)) as [Hk | Hk]; [by apply Hin |].
           by rewrite Hout, lookup_insert_eq.
        -- intros p [Hne Hp]%not_elem_of_cons.
           by rewrite Hout, lookup_insert_ne.
        -- intros p [-> | Hp]%elem_of_cons; [| by apply Hpos].
           apply Z.nlt_ge, Hneg.
      * destruct IH as [-> (p & Hin & Hp)]; [intros p Hp; apply Hown; by right |].
        split; [done |]. exists p. split; [by right | done].
Qed.


(** The order in which the keys are visited is immaterial: two visits of
    the same keys complete in the same way. *)
Lemma defaultFire_loop_order (t : Transition) (marking : Marking)
    (keys keys' : list string) (acc : Marking) :
  (∀ p, p ∈ keys ↔ p ∈ keys') →
  (∀ p, p ∈ keys → is_Some (marking !! p)) →
  defaultFire_loop t marking keys acc = defaultFire_loop t marking keys' acc.
Proof.
  intros Hsame Hown.
  pose proof (defaultFire_loop_spec t marking keys acc Hown) as H1.
  pose proof (defaultFire_loop_spec t marking keys' acc) as H2.
  destruct (defaultFire_loop t marking keys acc) as [next | e],
           (defaultFire_loop t marking keys' acc) as [next' | e'].
  - destruct H1 as (Hin & Hout & _).
    destruct H2 as (Hin' & Hout' & _); [intros p Hp; by apply Hown, Hsame |].
    f_equal. apply map_eq. intros p.
    destruct (decide (p ∈ keys)) as [Hp | Hp].
    + rewrite Hin, Hin'; [done | by apply Hsame | done].
    + rewrite Hout, Hout'; [done | by rewrite <- Hsame | done].
  - destruct H1 as (_ & _ & Hpos).
    destruct H2 as (_ & p & Hp & Hneg); [intros p Hp; by apply Hown, Hsame |].
    apply Hsame, Hpos in Hp. lia.
  - destruct H1 as (_ & p & Hp & Hneg).
    destruct H2 as (_ & _ & Hpos); [intros q Hq; by apply Hown, Hsame |].
    apply Hsame, Hpos in Hp. lia.
  - destruct H1 as [-> _].
    destruct H2 as [-> _]; [intros p Hp; by apply Hown, Hsame | done].
Qed.

Lemma next_tokens_lookup (t : Transition) (marking : Marking) (p : string) (v : Z) :
  marking !! p = Some v →
  next_tokens t marking p
  = v - or_zero (preconditions t !! p) + or_zero (postconditions t !! p).
Proof. intros Hv. unfold next_tokens. rewrite Hv. simpl. case_decide; lia. Qed.

Lemma defaultFire_spec (t : Transition) (marking : Marking) :
  match defaultFire t marking with
  | Returns next =>
      next = fired t marking
      ∧ (∀ p, is_Some (marking !! p) → 0 ≤ next_tokens t marking p)
  | Throws e =>
      e = NotFireableError (name t)
      ∧ ∃ p, is_Some (marking !! p) ∧ next_tokens t marking p < 0
  end.
Proof.
  unfold defaultFire.
  pose proof (defaultFire_loop_spec t marking (Object_keys marking) ∅) as H.
  destruct (defaultFire_loop t marking (Object_keys marking) ∅) as [next | e].
  - destruct H as (Hin & Hout & Hpos); [intros p; apply elem_of_Object_keys |].
    split.
    + apply map_eq. intros p. unfold fired. rewrite map_lookup_imap.
      destruct (marking !! p) as [v|] eqn:Hv; simpl.
      * rewrite Hin by (apply elem_of_Object_keys; eauto).
        by rewrite (next_tokens_lookup t marking p v).
      * rewrite Hout; [done |].
        intros [v Hp]%elem_of_Object_keys. congruence.
    + intros p Hp. by apply Hpos, elem_of_Object_keys.
  - destruct H as [-> (p & Hin & Hp)]; [intros p; apply elem_of_Object_keys |].
    split; [done |]. exists p. split; [by apply elem_of_Object_keys | done].
Qed.

Lemma defaultFire_returns (t : Transition) (marking next : Marking) :
  defaultFire t marking = Returns next →
  next = fired t marking
  ∧ (∀ p, is_Some (marking !! p) → 0 ≤ next_tokens t marking p).
Proof. intros H. pose proof (defaultFire_spec t marking) as S. by rewrite H in S. Qed.

Lemma defaultFire_throws (t : Transition) (marking : Marking) (e : Error) :
  defaultFire t marking = Throws e →
  e = NotFireableError (name t)
  ∧ ∃ p, is_Some (marking !! p) ∧ next_tokens t marking p < 0.
Proof. intros H. pose proof (defaultFire_spec t marking) as S. by rewrite H in S. Qed.

Lemma fired_lookup (t : Transition) (marking : Marking) (p : string) :
  fired t marking !! p
  = (λ v, v - or_zero (preconditions t !! p) + or_zero (postconditions t !! p))
      <$> marking !! p.
Proof. unfold fired. rewrite map_lookup_imap. by destruct (marking !! p). Qed.

Lemma total_fired (t : Transition) (marking : Marking) :
  total (fired t marking)
  = total marking - weight_over (preconditions t) marking
      + weight_over (postconditions t) marking.
Proof. unfold fired. by rewrite total_imap, fold_tokens. Qed.

(** A transition that [defaultIsFireable] accepts has all its input places
    in the marking, each holding at least the weight of its arc. *)
Lemma defaultIsFireable_true (t : Transition) (marking : Marking) :
  defaultIsFireable t marking = true ↔
  ∀ p w, preconditions t !! p = Some w →
         ∃ v, marking !! p = Some v ∧ w ≤ v.
Proof.
  unfold defaultIsFireable. rewrite forallb_forall. split.
  - intros H p w Hw.
    specialize (H p). rewrite <- list_elem_of_In, elem_of_Object_keys in H.
    specialize (H (ex_intro _ w Hw)). rewrite Hw in H.
    destruct (marking !! p) as [v|]; simpl in H; [| done].
    exists v. split; [done |]. by apply bool_decide_eq_true in H.
  - intros H p [w Hw]%list_elem_of_In%elem_of_Object_keys.
    destruct (H p w Hw) as (v & -> & Hle).
    rewrite Hw. simpl. by apply bool_decide_eq_true.
Qed.

(** ** The default firing rule: the claims *)

(** [defaultFire] has a single way to fail: the check on [hasOwnProperty]
    looks at the keys of the marking itself, which the marking always owns. *)
Lemma defaultFire_never_unknown_place (t : Transition) (m : Marking)
    (p tname : string) :
  defaultFire t m ≠ Throws (UnknownPlaceError p tname).
Proof. intros H. by apply defaultFire_throws in H as [? _]. Qed.

(** C1, as stated, fails: [t_outside] is fireable in the initial marking of
    the example model and [defaultFire] returns, but the token sent to [p2]
    is lost: the sum of the result is 0, not 1 - 1 + 1. *)
Lemma C1_counterexample :
  defaultIsFireable t_outside (m0 example_model) = true
  ∧ defaultFire t_outside (m0 example_model)
    = Returns {[ "p0" := 0; "p1" := 0 ]}
  ∧ total ({[ "p0" := 0; "p1" := 0 ]} : Marking)
    ≠ total (m0 example_model) - total (preconditions t_outside)
        + total (postconditions t_outside).
Proof. split; [| split]; vm_compute; [reflexivity | reflexivity | discriminate]. Qed.

(** C1 (amended): whenever [defaultFire t m] returns [next], every place [p]
    of [m] has [next[p] = m[p] - pre[p] + post[p]], a missing weight counting
    for 0; and when moreover [defaultIsFireable t m] holds and every place of
    the postconditions is a place of [m], the sum of [next] is
    [sum(m) - sum(pre) + sum(post)]. *)
Theorem C1_defaultFire_token_conservation (t : Transition) (m next : Marking) :
  defaultFire t m = Returns next →
  (∀ p v, m !! p = Some v →
     next !! p = Some (v - default 0 (preconditions t !! p)
                         + default 0 (postconditions t !! p)))
  ∧ (defaultIsFireable t m = true →
     dom (postconditions t) ⊆ dom m →
     total next
     = total m - total (preconditions t) + total (postconditions t)).
Proof.
  intros [-> _]%defaultFire_returns. split.
  - intros p v Hv. by rewrite fired_lookup, Hv, !or_zero_default.
  - intros Hfireable Hpost. rewrite total_fired.
    rewrite (weight_over_total (postconditions t)) by done.
    rewrite (weight_over_total (preconditions t)); [done |].
    intros p [w Hw]%elem_of_dom.
    apply defaultIsFireable_true with (p := p) (w := w) in Hfireable
      as (v & Hv & _); [| done].
    apply elem_of_dom. by exists v.
Qed.

Lemma C1_witness :
  (∀ p v, m0 example_model !! p = Some v →
     ({[ "p0" := 0; "p1" := 2 ]} : Marking) !! p
     = Some (v - default 0 (preconditions t1 !! p)
               + default 0 (postconditions t1 !! p)))
  ∧ total ({[ "p0" := 0; "p1" := 2 ]} : Marking)
    = total (m0 example_model) - total (preconditions t1)
        + total (postconditions t1).
Proof.
  destruct (C1_defaultFire_token_conservation t1 (m0 example_model)
              {[ "p0" := 0; "p1" := 2 ]}) as [Hplaces Hsum].
  - vm_compute. reflexivity.
  - split; [exact Hplaces |]. apply Hsum.
    + vm_compute. reflexivity.
    + compute_done.
Defined.

(** C2: [defaultFire] never returns a marking with a negative entry;
    whenever the count of some place of the marking would go below 0, it
    throws the "is not fireable" error instead of returning. *)
Theorem C2_defaultFire_non_negative (t : Transition) (m : Marking) :
  (∀ next, defaultFire t m = Returns next →
     ∀ p v, next !! p = Some v → 0 ≤ v)
  ∧ ((∃ p v, m !! p = Some v
             ∧ v - default 0 (preconditions t !! p)
                 + default 0 (postconditions t !! p) < 0) →
     defaultFire t m = Throws (NotFireableError (name t))).
Proof.
  split.
  - intros next [-> Hpos]%defaultFire_returns p v Hv.
    rewrite fired_lookup in Hv.
    destruct (m !! p) as [x|] eqn:Hx; simplify_eq/=.
    specialize (Hpos p (ex_intro _ x Hx)).
    by rewrite (next_tokens_lookup t m p x) in Hpos.
  - intros (p & v & Hv & Hneg).
    destruct (defaultFire t m) as [next | e] eqn:Hfire.
    + apply defaultFire_returns in Hfire as [_ Hpos].
      specialize (Hpos p (ex_intro _ v Hv)).
      rewrite (next_tokens_lookup t m p v), !or_zero_default in Hpos by done.
      lia.
    + by apply defaultFire_throws in Hfire as [-> _].
Qed.

Lemma C2_witness :
  (∀ p v, ({[ "p0" := 0; "p1" := 2 ]} : Marking) !! p = Some v → 0 ≤ v)
  ∧ defaultFire t1 {[ "p0" := 0; "p1" := 2 ]} = Throws (NotFireableError "t1").
Proof.
  split.
  - apply (proj1 (C2_defaultFire_non_negative t1 (m0 example_model))).
    vm_compute. reflexivity.
  - apply (proj2 (C2_defaultFire_non_negative t1 {[ "p0" := 0; "p1" := 2 ]})).
    exists "p0", 0. split; [reflexivity | vm_compute; reflexivity].
Defined.

(** C4, evaluated on the code: the precondition of [t_unknown] names the
    place [q], which the marking [{p0: 1}] does not have, and [defaultFire]
    returns the marking unchanged instead of throwing. *)
Theorem C4_defaultFire_ignores_unknown_place :
  preconditions t_unknown !! "q" = Some 1
  ∧ ({[ "p0" := 1 ]} : Marking) !! "q" = None
  ∧ defaultFire t_unknown {[ "p0" := 1 ]} = Returns {[ "p0" := 1 ]}.
Proof. repeat split; vm_compute; reflexivity. Qed.

(** C7: when [defaultFire] returns, the result has exactly the keys of the
    marking it was given; a place of the postconditions that the marking
    lacks does not appear in the result. *)
Theorem C7_defaultFire_keys (t : Transition) (m next : Marking) :
  defaultFire t m = Returns next →
  dom next = dom m
  ∧ (∀ p, p ∈ dom (postconditions t) → p ∉ dom m → next !! p = None).
Proof.
  intros [-> _]%defaultFire_returns. split.
  - apply set_eq. intros p. rewrite !elem_of_dom, fired_lookup.
    by rewrite fmap_is_Some.
  - intros p _ Hp. rewrite fired_lookup.
    apply not_elem_of_dom in Hp. by rewrite Hp.
Qed.

Lemma C7_witness :
  dom ({[ "p0" := 0; "p1" := 0 ]} : Marking) = dom (m0 example_model)
  ∧ ({[ "p0" := 0; "p1" := 0 ]} : Marking) !! "p2" = None.
Proof.
  destruct (C7_defaultFire_keys t_outside (m0 example_model)
              {[ "p0" := 0; "p1" := 0 ]}) as [Hdom Hpost].
  - vm_compute. reflexivity.
  - split; [exact Hdom |]. apply Hpost.
    + compute_done.
    + compute_done.
Defined.

(** C10: if all weights of [t] are non-negative, every input place of [t] is
    in [m], [defaultIsFireable t m] holds and no entry of [m] is negative,
    then [defaultFire t m] returns. *)
Theorem C10_fireable_fires (t : Transition) (m : Marking) :
  (∀ p w, preconditions t !! p = Some w → 0 ≤ w) →
  (∀ p w, postconditions t !! p = Some w → 0 ≤ w) →
  dom (preconditions t) ⊆ dom m →
  defaultIsFireable t m = true →
  (∀ p v, m !! p = Some v → 0 ≤ v) →
  ∃ next, defaultFire t m = Returns next.
Proof.
  intros Hpre Hpost _ Hfireable Hm.
  destruct (defaultFire t m) as [next | e] eqn:Hfire; [by exists next |].
  exfalso.
  apply defaultFire_throws in Hfire as (_ & p & [v Hv] & Hneg).
  rewrite (next_tokens_lookup t m p v), !or_zero_default in Hneg by done.
  assert (0 ≤ default 0 (postconditions t !! p)) as Hq.
  { destruct (postconditions t !! p) as [w|] eqn:Hw; simpl; [eauto | lia]. }
  destruct (preconditions t !! p) as [w|] eqn:Hw; simpl in Hneg.
  - apply defaultIsFireable_true with (p := p) (w := w) in Hfireable
      as (v' & Hv' & Hle); [| done].
    simplify_eq. lia.
  - specialize (Hm p v Hv). lia.
Qed.

Lemma C10_witness : ∃ next, defaultFire t1 (m0 example_model) = Returns next.
Proof.
  apply C10_fireable_fires.
  - change (map_Forall (λ _ w, 0 ≤ w) (preconditions t1)). compute_done.
  - change (map_Forall (λ _ w, 0 ≤ w) (postconditions t1)). compute_done.
  - compute_done.
  - vm_compute. reflexivity.
  - change (map_Forall (λ _ v, 0 ≤ v) (m0 example_model)). compute_done.
Defined.

(** ** The history wrapper *)

Section HistoryFacts.
Context {A : Type}.
Implicit Types h : History A.

Lemma undo_snoc (l : list A) (x y : A) (f : list A) :
  undo {| past := l ++ [x]; present := y; future := f |}
  = {| past := l; present := x; future := y :: f |}.
Proof. unfold undo. simpl. by rewrite last_snoc, removelast_last. Qed.

Lemma undo_nil (y : A) (f : list A) :
  undo {| past := []; present := y; future := f |}
  = {| past := []; present := y; future := f |}.
Proof. done. Qed.

Lemma rewind_snoc (l : list A) (x y : A) (f : list A) :
  rewind {| past := l ++ [x]; present := y; future := f |}
  = rewind {| past := l; present := x; future := y :: f |}.
Proof.
  unfold rewind. simpl. destruct l as [|a l]; simpl; [done |].
  by rewrite <- app_assoc.
Qed.

(** Undoing at least as many times as there are past values rewinds the
    frame to its oldest value. *)
Lemma iter_undo (n : nat) h :
  (length (past h) ≤ n)%nat → Nat.iter n undo h = rewind h.
Proof.
  revert h. induction n as [|n IH]; intros [p y f]; simpl past; intros Hlen.
  - destruct p; [done | simpl in Hlen; lia].
  - rewrite Nat.iter_succ_r.
    destruct p as [|x l _] using rev_ind.
    + rewrite undo_nil. apply IH. simpl. lia.
    + rewrite undo_snoc, rewind_snoc. apply IH. simpl.
      rewrite length_app in Hlen. simpl in Hlen. lia.
Qed.

Lemma fastforward_cons (p : list A) (y x : A) (f : list A) :
  fastforward {| past := p; present := y; future := x :: f |}
  = fastforward {| past := p ++ [y]; present := x; future := f |}.
Proof.
  unfold fastforward. cbn [past present future].
  destruct f as [|z f]; [done |].
  rewrite last_cons_cons.
  change (removelast (x :: z :: f)) with (x :: removelast (z :: f)).
  destruct (last (z :: f)) eqn:Hlast.
  - by rewrite <- app_assoc.
  - by apply last_None in Hlast.
Qed.

(** Redoing at least as many times as there are undone values brings the
    frame to its newest value. *)
Lemma iter_redo (n : nat) h :
  (length (future h) ≤ n)%nat → Nat.iter n redo h = fastforward h.
Proof.
  revert h. induction n as [|n IH]; intros [p y f]; simpl future; intros Hlen.
  - destruct f; [done | simpl in Hlen; lia].
  - rewrite Nat.iter_succ_r.
    destruct f as [|x f].
    + change (redo {| past := p; present := y; future := [] |})
        with {| past := p; present := y; future := [] |}.
      apply IH. simpl. lia.
    + change (redo {| past := p; present := y; future := x :: f |})
        with {| past := p ++ [y]; present := x; future := f |}.
      rewrite fastforward_cons. apply IH. simpl in *. lia.
Qed.

Lemma present_rewind h : present (rewind h) = oldest h.
Proof. unfold rewind, oldest. by destruct (past h). Qed.

Lemma length_future_rewind h :
  length (future (rewind h)) = (length (past h) + length (future h))%nat.
Proof.
  unfold rewind. destruct (past h) as [|a l]; simpl; [done |].
  rewrite length_app. simpl. lia.
Qed.

(** With nothing to redo, rewinding and then going forward again gives back
    the frame. *)
Lemma fastforward_rewind h : future h = [] → fastforward (rewind h) = h.
Proof.
  destruct h as [p y f]. simpl. intros ->.
  unfold rewind. simpl. destruct p as [|a l]; [done |].
  unfold fastforward. simpl. by rewrite last_snoc, removelast_last.
Qed.

End HistoryFacts.

(** ** The store and the facade *)

Section FacadeFacts.
Context {Binding : Type} `{EqDecision Binding}.
Implicit Types this : PetriNet Binding.
Implicit Types action : Action Binding.

(** A [FIRE] on a frame with nothing to redo: at most one value is added to
    [past], [future] stays empty, the oldest value stays, and the present is
    what the reducer computes. *)
Lemma undoable_FIRE {A} `{EqDecision A} (R : A → Action Binding → A)
    (h : History A) (t : Transition) (b : option Binding) (next : Marking) :
  let h' := undoable R h (FIRE t b next) in
  present h' = R (present h) (FIRE t b next)
  ∧ (length (past h') ≤ S (length (past h)))%nat
  ∧ oldest h' = oldest h
  ∧ (future h = [] → future h' = []).
Proof.
  unfold oldest. simpl. case_decide as Heq.
  - rewrite Heq. repeat split; [lia | done].
  - simpl. repeat split.
    + rewrite length_app. simpl. lia.
    + by destruct (past h).
Qed.

Lemma call_eta {A} (m : Method Binding A) this (c : Completion A) :
  outcome m this = c → m this = (c, after m this).
Proof. unfold outcome, after. intros <-. by destruct (m this). Qed.

Lemma getState_constructor (model : Model) (custom : CustomFireSemantics Binding) :
  getState (store (PetriNet_constructor model custom))
  = {| state_model := model;
       state_marking := createHistory (m0 model);
       state_sequence := createHistory [] |}.
Proof.
  unfold PetriNet_constructor, dispatch, reducers, init. simpl.
  f_equal. unfold clearHistory. by case_decide as Heq; [rewrite <- Heq |].
Qed.

Lemma PetriNet_fire_returns (t : Transition) this this' :
  PetriNet_fire t this = (Returns tt, this') →
  ∃ b next,
    fire (fireSemantics this) t (PetriNet_marking this) b = Returns next
    ∧ this' = {| fireSemantics := fireSemantics this;
                 store := dispatch (FIRE t b next) (store this) |}.
Proof.
  unfold PetriNet_fire, mbind, Method_bind, this_store_getState,
    this_fireSemantics, eval, this_store_dispatch, fireTransition,
    PetriNet_marking.
  simpl.
  destruct (fire (fireSemantics this) t _ _) as [next | e] eqn:Hfire;
    intros Heq; simplify_eq.
  eauto.
Qed.

Lemma times_dispatch (n : nat) action this :
  times n (this_store_dispatch action) this
  = (Returns tt,
     {| fireSemantics := fireSemantics this;
        store := Nat.iter n (dispatch action) (store this) |}).
Proof.
  revert this. induction n as [|n IH]; intros this.
  - by destruct this.
  - rewrite Nat.iter_succ_r. cbn [times].
    unfold mbind, Method_bind. cbn [this_store_dispatch].
    by rewrite IH.
Qed.

Lemma getState_iter_UNDO (n : nat) (s : Store Binding) :
  getState (Nat.iter n (dispatch UNDO) s)
  = {| state_model := state_model (getState s);
       state_marking := Nat.iter n undo (state_marking (getState s));
       state_sequence := Nat.iter n undo (state_sequence (getState s)) |}.
Proof.
  induction n as [|n IH]; simpl.
  - by destruct (getState s).
  - by rewrite IH.
Qed.

Lemma getState_iter_REDO (n : nat) (s : Store Binding) :
  getState (Nat.iter n (dispatch REDO) s)
  = {| state_model := state_model (getState s);
       state_marking := Nat.iter n redo (state_marking (getState s));
       state_sequence := Nat.iter n redo (state_sequence (getState s)) |}.
Proof.
  induction n as [|n IH]; simpl.
  - by destruct (getState s).
  - by rewrite IH.
Qed.

(** What a run of successful fires keeps true of the two frames. *)
Lemma fire_all_returns (ts : list Transition) this this' :
  fire_all ts this = (Returns tt, this') →
  let s := getState (store this) in
  let s' := getState (store this') in
  future (state_marking s) = [] →
  future (state_sequence s) = [] →
  future (state_marking s') = []
  ∧ future (state_sequence s') = []
  ∧ (length (past (state_marking s'))
     ≤ length (past (state_marking s)) + length ts)%nat
  ∧ (length (past (state_sequence s'))
     ≤ length (past (state_sequence s)) + length ts)%nat
  ∧ oldest (state_marking s') = oldest (state_marking s)
  ∧ oldest (state_sequence s') = oldest (state_sequence s).
Proof.
  revert this. induction ts as [|t ts IH]; intros this; cbn [fire_all].
  - intros [= <-]. simpl. intros Hm Hs. repeat split; [done | done | lia | lia].
  - unfold mbind at 1, Method_bind at 1.
    destruct (PetriNet_fire t this) as [[[] | e] this1] eqn:Hfire; [| done].
    intros Hrest Hm Hs.
    apply PetriNet_fire_returns in Hfire as (b & next & _ & ->).
    specialize (IH _ Hrest). cbn [store getState dispatch reducers
      state_marking state_sequence] in IH.
    destruct (undoable_FIRE marking (state_marking (getState (store this)))
                t b next) as (_ & Hlm & Hom & Hfm).
    destruct (undoable_FIRE sequence (state_sequence (getState (store this)))
                t b next) as (_ & Hls & Hos & Hfs).
    destruct IH as (? & ? & ? & ? & Hom' & Hos'); [by apply Hfm | by apply Hfs |].
    repeat split; [done | done | | | by rewrite Hom' | by rewrite Hos'];
      simpl length; lia.
Qed.

(** *** Undo and redo over a run of fires *)

(** C3: after the construction of the simulator ([Init], then the clearing of
    the history) and any run of [n] successful [fire] calls, [n] calls of
    [undo] bring the marking and the fired sequence back to their values
    right after the construction, and [n] calls of [redo] then bring both
    back to their values after the last fire. *)
Theorem C3_undo_redo_inverse (model : Model)
    (custom : CustomFireSemantics Binding) (ts : list Transition) this_n :
  let this_0 := PetriNet_constructor model custom in
  let n := length ts in
  fire_all ts this_0 = (Returns tt, this_n) →
  ∃ this_u this_r,
    times n PetriNet_undo this_n = (Returns tt, this_u)
    ∧ PetriNet_marking this_u = PetriNet_marking this_0
    ∧ PetriNet_sequence this_u = PetriNet_sequence this_0
    ∧ times n PetriNet_redo this_u = (Returns tt, this_r)
    ∧ PetriNet_marking this_r = PetriNet_marking this_n
    ∧ PetriNet_sequence this_r = PetriNet_sequence this_n.
Proof.
  intros this_0 n Hrun.
  pose proof (fire_all_returns _ _ _ Hrun) as Hinv. subst this_0.
  cbv zeta in Hinv. rewrite getState_constructor in Hinv. simpl in Hinv.
  destruct Hinv as (Hfm & Hfs & Hlm & Hls & Hom & Hos); [done | done |].
  fold n in Hlm, Hls.
  unfold PetriNet_undo, PetriNet_redo. rewrite times_dispatch.
  eexists _, _. split; [reflexivity |].
  rewrite times_dispatch.
  assert (∀ {A} (h : History A),
            future h = [] → (length (past h) ≤ n)%nat →
            Nat.iter n undo h = rewind h
            ∧ Nat.iter n redo (rewind h) = h) as Hround.
  { intros A h Hf Hl. split; [by apply iter_undo |].
    rewrite iter_redo by (rewrite length_future_rewind, Hf; simpl; lia).
    by apply fastforward_rewind. }
  destruct (Hround _ _ Hfm Hlm) as [Hum Hrm].
  destruct (Hround _ _ Hfs Hls) as [Hus Hrs].
  unfold PetriNet_marking, PetriNet_sequence. cbn [store fireSemantics].
  split; [| split; [| split; [reflexivity | split]]].
  - rewrite getState_iter_UNDO, getState_constructor. cbn.
    by rewrite Hum, present_rewind, Hom.
  - rewrite getState_iter_UNDO, getState_constructor. cbn.
    by rewrite Hus, present_rewind, Hos.
  - cbn [store fireSemantics].
    rewrite getState_iter_REDO, getState_iter_UNDO. cbn.
    by rewrite Hum, Hrm.
  - cbn [store fireSemantics].
    rewrite getState_iter_REDO, getState_iter_UNDO. cbn.
    by rewrite Hus, Hrs.
Qed.

(** *** A fire that fails *)

(** C5: if the fire function throws while [fire(t)] runs, the call throws
    the same error to its caller, no action reaches the store, and the
    state of the store, with the frames of the marking and of the sequence,
    is what it was before the call. *)
Theorem C5_fire_all_or_nothing (t : Transition) this (e : Error) :
  let m := PetriNet_marking this in
  let b := match chooseBinding (fireSemantics this) with
           | Some choose => choose t m
           | None => None
           end in
  fire (fireSemantics this) t m b = Throws e →
  PetriNet_fire t this = (Throws e, this)
  ∧ dispatched (store (PetriNet_fire t this).2) = dispatched (store this)
  ∧ state_marking (getState (store (PetriNet_fire t this).2))
    = state_marking (getState (store this))
  ∧ state_sequence (getState (store (PetriNet_fire t this).2))
    = state_sequence (getState (store this)).
Proof.
  intros m b Hthrow.
  assert (PetriNet_fire t this = (Throws e, this)) as Hfire.
  { unfold PetriNet_fire, mbind, Method_bind, this_store_getState,
      this_fireSemantics, eval, fireTransition.
    cbn. fold (PetriNet_marking this). fold m. fold b. by rewrite Hthrow. }
  by rewrite Hfire.
Qed.

(** *** The sequence reducer *)

(** The entry a fire adds to the sequence. *)
Lemma sequence_fold_FIRE
    (fires : list (Transition * option Binding * Marking))
    (state : list (Entry Binding)) :
  fold_left sequence ((λ f, FIRE f.1.1 f.1.2 f.2) <$> fires) state
  = state ++ ((λ f, {| transition := name f.1.1; binding := f.1.2 |}) <$> fires).
Proof.
  revert state. induction fires as [|f fires IH]; intros state; simpl.
  - by rewrite app_nil_r.
  - rewrite IH. by rewrite <- app_assoc.
Qed.

(** C6: the sequence reducer returns the empty sequence on [INIT]; on [FIRE]
    it appends, at the end of the sequence, one entry made of the name of
    the fired transition and of the binding of the action; on any other
    action it returns the sequence unchanged.  Hence after an [INIT] and a
    run of fires the sequence holds one entry per fire, in the order of the
    fires. *)
Theorem C6_sequence_reducer (state : list (Entry Binding)) action :
  match action with
  | INIT _ => sequence state action = []
  | FIRE t b _ =>
      sequence state action
      = state ++ [ {| transition := name t; binding := b |} ]
  | UNDO | REDO | CLEAR_HISTORY | OTHER _ => sequence state action = state
  end
  ∧ ∀ (model : Model) (fires : list (Transition * option Binding * Marking)),
      fold_left sequence
        (INIT model :: ((λ f, FIRE f.1.1 f.1.2 f.2) <$> fires)) state
      = (λ f, {| transition := name f.1.1; binding := f.1.2 |}) <$> fires.
Proof.
  split.
  - by destruct action.
  - intros model fires. cbn [fold_left]. by rewrite sequence_fold_FIRE.
Qed.

(** *** Actions that change nothing *)

(** C9: when an action other than [UNDO], [REDO] and [CLEAR_HISTORY] makes
    the wrapped reducer return the present value of the slice, the wrapper
    adds no entry: the frame, with its [past] and [future], is unchanged,
    and an [UNDO] right after it does what it would have done before. *)
Theorem C9_unchanged_value_no_entry {A} `{EqDecision A}
    (R : A → Action Binding → A) (h : History A) action :
  action ≠ UNDO → action ≠ REDO → action ≠ CLEAR_HISTORY →
  R (present h) action = present h →
  undoable R h action = h
  ∧ past (undoable R h action) = past h
  ∧ future (undoable R h action) = future h
  ∧ undoable R (undoable R h action) UNDO = undoable R h UNDO.
Proof.
  intros Hu Hr Hc Hsame.
  assert (undoable R h action = h) as ->; [| done].
  destruct action; simpl; try done; by rewrite decide_True.
Qed.

(** *** A fire after an undo *)

Lemma redo_nil {A} (h : History A) : future h = [] → redo h = h.
Proof. unfold redo. by intros ->. Qed.

Lemma reducers_REDO_nil (s : State Binding) :
  future (state_marking s) = [] → future (state_sequence s) = [] →
  reducers s REDO = s.
Proof.
  intros Hm Hs. destruct s as [md hm hs]. unfold reducers. simpl in *.
  by rewrite !redo_nil.
Qed.

Lemma sequence_FIRE_changes (state : list (Entry Binding)) (t : Transition)
    (b : option Binding) (next : Marking) :
  sequence state (FIRE t b next) ≠ state.
Proof.
  simpl. intros Heq. apply (f_equal length) in Heq.
  rewrite length_app in Heq. simpl in Heq. lia.
Qed.

(** C8 (amended): after the construction, a run of successful fires and
    [k >= 1] calls of [undo], a successful fire whose next marking differs
    from the current marking empties [future] in both frames: a [redo] right
    after it changes nothing in the state of the store. *)
Theorem C8_branch_invalidation (net : Model)
    (custom : CustomFireSemantics Binding) (ts : list Transition) (k : nat)
    (t : Transition) this_1 this_2 this_3 :
  fire_all ts (PetriNet_constructor net custom) = (Returns tt, this_1) →
  (1 ≤ k)%nat →
  times k PetriNet_undo this_1 = (Returns tt, this_2) →
  PetriNet_fire t this_2 = (Returns tt, this_3) →
  PetriNet_marking this_3 ≠ PetriNet_marking this_2 →
  future (state_marking (getState (store this_3))) = []
  ∧ future (state_sequence (getState (store this_3))) = []
  ∧ ∃ this_4,
      PetriNet_redo this_3 = (Returns tt, this_4)
      ∧ PetriNet_marking this_4 = PetriNet_marking this_3
      ∧ PetriNet_sequence this_4 = PetriNet_sequence this_3
      ∧ getState (store this_4) = getState (store this_3).
Proof.
  intros _ _ _ Hfire Hchanged.
  apply PetriNet_fire_returns in Hfire as (b & next & _ & ->).
  unfold PetriNet_marking in Hchanged.
  cbn [store getState dispatch reducers state_marking state_sequence]
    in Hchanged |- *.
  assert (future (undoable marking (state_marking (getState (store this_2)))
                    (FIRE t b next)) = []) as Hfm.
  { cbn [undoable] in Hchanged |- *. cbn [marking] in Hchanged |- *.
    by case_decide. }
  assert (future (undoable sequence (state_sequence (getState (store this_2)))
                    (FIRE t b next)) = []) as Hfs.
  { cbn [undoable].
    rewrite decide_False by apply sequence_FIRE_changes. done. }
  split; [done |]. split; [done |].
  eexists. split; [reflexivity |].
  unfold PetriNet_marking, PetriNet_sequence.
  cbn [store getState dispatch].
  by rewrite reducers_REDO_nil.
Qed.

End FacadeFacts.

(** ** The example model, run *)

(** Evaluates a conjunction of facts about a concrete run. *)
Ltac run_simulation :=
  cbv zeta;
  repeat match goal with |- _ ∧ _ => split end;
  try lazymatch goal with
      | |- _ = _ => try apply call_eta; vm_compute; reflexivity
      end.

(** Two markings differ as soon as they differ at one place. *)
Ltac markings_differ_at p :=
  let H := fresh in
  intros H; apply (f_equal (λ m : Marking, m !! p)) in H;
  vm_compute in H; discriminate H.

(** The scenario of the specification: fire [t1], fail to fire it again,
    fire [t0], undo. *)
Example fire_scenario :
  let this_1 := after (PetriNet_fire t1) example_net in
  let this_2 := after (PetriNet_fire t0) this_1 in
  let this_3 := after PetriNet_undo this_2 in
  PetriNet_fire t1 example_net = (Returns tt, this_1)
  ∧ PetriNet_marking this_1 = {[ "p0" := 0; "p1" := 2 ]}
  ∧ PetriNet_sequence this_1 = [ {| transition := "t1"; binding := None |} ]
  ∧ outcome (PetriNet_fire t1) this_1 = Throws (NotFireableError "t1")
  ∧ PetriNet_fire t0 this_1 = (Returns tt, this_2)
  ∧ PetriNet_marking this_2 = {[ "p0" := 1; "p1" := 1 ]}
  ∧ PetriNet_undo this_2 = (Returns tt, this_3)
  ∧ PetriNet_marking this_3 = {[ "p0" := 0; "p1" := 2 ]}
  ∧ PetriNet_sequence this_3 = [ {| transition := "t1"; binding := None |} ].
Proof.
  run_simulation.
Qed.

Lemma C3_witness :
  let this_n := after (fire_all [t1; t0]) example_net in
  ∃ this_u this_r,
    times 2 PetriNet_undo this_n = (Returns tt, this_u)
    ∧ PetriNet_marking this_u = PetriNet_marking example_net
    ∧ PetriNet_sequence this_u = PetriNet_sequence example_net
    ∧ times 2 PetriNet_redo this_u = (Returns tt, this_r)
    ∧ PetriNet_marking this_r = PetriNet_marking this_n
    ∧ PetriNet_sequence this_r = PetriNet_sequence this_n.
Proof.
  apply (C3_undo_redo_inverse example_model no_custom [t1; t0]).
  apply call_eta. vm_compute. reflexivity.
Defined.

Lemma C5_witness :
  PetriNet_fire t0 example_net = (Throws (NotFireableError "t0"), example_net)
  ∧ dispatched (store (PetriNet_fire t0 example_net).2)
    = dispatched (store example_net).
Proof.
  destruct (C5_fire_all_or_nothing t0 example_net (NotFireableError "t0"))
    as (Hfire & Hjournal & _).
  - vm_compute. reflexivity.
  - split; [exact Hfire | exact Hjournal].
Defined.

(** C8, as stated, fails.  Under [skip_semantics] the run is: construction
    on the example model, fire [t1], one [undo], fire [skip].  The fire of
    [skip] succeeds and hands back the current marking itself, so the frame
    of the marking keeps the undone value in [future] while the frame of the
    sequence gets its entry; the [redo] that follows then brings the undone
    marking back. *)
Lemma C8_counterexample :
  let this_1 := after (fire_all [t1]) skip_net in
  let this_2 := after (times 1 PetriNet_undo) this_1 in
  let this_3 := after (PetriNet_fire t_skip) this_2 in
  let this_4 := after PetriNet_redo this_3 in
  fire_all [t1] skip_net = (Returns tt, this_1)
  ∧ times 1 PetriNet_undo this_1 = (Returns tt, this_2)
  ∧ PetriNet_fire t_skip this_2 = (Returns tt, this_3)
  ∧ PetriNet_redo this_3 = (Returns tt, this_4)
  ∧ PetriNet_marking this_3 = {[ "p0" := 1; "p1" := 0 ]}
  ∧ PetriNet_sequence this_3 = [ {| transition := "skip"; binding := None |} ]
  ∧ PetriNet_marking this_4 = {[ "p0" := 0; "p1" := 2 ]}
  ∧ PetriNet_marking this_4 ≠ PetriNet_marking this_3.
Proof.
  run_simulation. markings_differ_at "p0".
Qed.

Lemma C8_witness :
  let this_1 := after (fire_all [t1; t0]) example_net in
  let this_2 := after (times 2 PetriNet_undo) this_1 in
  let this_3 := after (PetriNet_fire t1) this_2 in
  ∃ this_4,
    PetriNet_redo this_3 = (Returns tt, this_4)
    ∧ PetriNet_marking this_4 = PetriNet_marking this_3
    ∧ PetriNet_sequence this_4 = PetriNet_sequence this_3.
Proof.
  intros this_1 this_2 this_3.
  destruct (C8_branch_invalidation example_model no_custom [t1; t0] 2 t1
              this_1 this_2 this_3)
    as (_ & _ & this_4 & Hredo & Hm & Hs & _).
  - apply call_eta. vm_compute. reflexivity.
  - lia.
  - apply call_eta. vm_compute. reflexivity.
  - apply call_eta. vm_compute. reflexivity.
  - markings_differ_at "p0".
  - exists this_4. split; [exact Hredo |]. split; [exact Hm | exact Hs].
Defined.

Lemma C9_witness :
  undoable (Binding := unit) marking
    {| past := [ {[ "p0" := 1; "p1" := 0 ]} ];
       present := {[ "p0" := 0; "p1" := 2 ]}; future := [] |}
    (FIRE t_skip None {[ "p0" := 0; "p1" := 2 ]})
  = {| past := [ {[ "p0" := 1; "p1" := 0 ]} ];
       present := {[ "p0" := 0; "p1" := 2 ]}; future := [] |}.
Proof.
  apply (C9_unchanged_value_no_entry (Binding := unit) marking); done.
Defined.

(** * Further properties of the code *)

(** ** The default firing rule *)

(** Two ways to check, by computation, that a marking is below another. *)
Lemma below_intro (m m' : Marking) :
  map_Forall (λ p v, match m' !! p with
                     | Some v' => Z.leb v v'
                     | None => false
                     end = true) m →
  ∀ p v, m !! p = Some v → ∃ v', m' !! p = Some v' ∧ v ≤ v'.
Proof.
  intros H p v Hv. specialize (H p v Hv). simpl in H.
  destruct (m' !! p) as [v'|]; [| done].
  exists v'. split; [done | by apply Z.leb_le].
Qed.

Lemma below_intro_weak (m m' : Marking) :
  map_Forall (λ p v, match m' !! p with
                     | Some v' => Z.leb v v'
                     | None => true
                     end = true) m →
  ∀ p v v', m !! p = Some v → m' !! p = Some v' → v ≤ v'.
Proof.
  intros H p v v' Hv Hv'. specialize (H p v Hv). simpl in H.
  rewrite Hv' in H. by apply Z.leb_le.
Qed.

(** X1: [defaultIsFireable t m] holds exactly when every place of the
    preconditions of [t] is a place of [m] that holds at least the weight of
    its arc.  So a transition without preconditions is fireable in every
    marking, and a precondition on a place that [m] lacks makes the
    transition not fireable whatever its weight. *)
Theorem X1_defaultIsFireable_iff (t : Transition) (m : Marking) :
  (defaultIsFireable t m = true ↔
   ∀ p w, preconditions t !! p = Some w → ∃ v, m !! p = Some v ∧ w ≤ v)
  ∧ (preconditions t = ∅ → defaultIsFireable t m = true)
  ∧ (∀ p, is_Some (preconditions t !! p) → m !! p = None →
          defaultIsFireable t m = false).
Proof.
  split; [apply defaultIsFireable_true |]. split.
  - intros Hpre. apply defaultIsFireable_true. intros p w.
    by rewrite Hpre, lookup_empty.
  - intros p [w Hw] Hp. apply not_true_is_false. intros Hfireable.
    destruct (proj1 (defaultIsFireable_true t m) Hfireable p w Hw)
      as (v & Hv & _).
    congruence.
Qed.

Lemma X1_witness :
  defaultIsFireable t_skip (m0 example_model) = true
  ∧ defaultIsFireable t_unknown (m0 example_model) = false.
Proof.
  split.
  - by apply (proj1 (proj2 (X1_defaultIsFireable_iff t_skip (m0 example_model)))).
  - apply (proj2 (proj2 (X1_defaultIsFireable_iff t_unknown (m0 example_model)))
             "q"); [by eexists | done].
Defined.

(** X2: [defaultFire t m] returns exactly when no place of [m] would hold a
    negative count after the firing; the preconditions on places that [m]
    lacks play no part. *)
Theorem X2_defaultFire_returns_iff (t : Transition) (m : Marking) :
  (∃ next, defaultFire t m = Returns next) ↔
  (∀ p v, m !! p = Some v →
     0 ≤ v - default 0 (preconditions t !! p)
           + default 0 (postconditions t !! p)).
Proof.
  split.
  - intros [next [_ Hpos]%defaultFire_returns] p v Hv.
    specialize (Hpos p (ex_intro _ v Hv)).
    by rewrite (next_tokens_lookup t m p v), !or_zero_default in Hpos.
  - intros Hpos.
    destruct (defaultFire t m) as [next | e] eqn:Hfire; [by exists next |].
    apply defaultFire_throws in Hfire as (_ & p & [v Hv] & Hneg).
    rewrite (next_tokens_lookup t m p v), !or_zero_default in Hneg by done.
    specialize (Hpos p v Hv). lia.
Qed.

Lemma X2_witness : ∃ next, defaultFire t_unknown {[ "p0" := 1 ]} = Returns next.
Proof.
  apply X2_defaultFire_returns_iff. intros p v Hv.
  apply lookup_singleton_Some in Hv as [<- <-]. vm_compute. discriminate.
Defined.

(** X3: the only error [defaultFire] throws is the one that says the
    transition is not fireable, with the name of the transition in its
    message; and it is thrown only when some place of the marking would go
    below zero. *)
Theorem X3_defaultFire_only_error (t : Transition) (m : Marking) (e : Error) :
  defaultFire t m = Throws e →
  e = NotFireableError (name t)
  ∧ message e = "'" +:+ name t +:+ "' is not fireable"
  ∧ ∃ p v, m !! p = Some v
           ∧ v - default 0 (preconditions t !! p)
               + default 0 (postconditions t !! p) < 0.
Proof.
  intros (-> & p & [v Hv] & Hneg)%defaultFire_throws.
  split; [done |]. split; [done |]. exists p, v. split; [done |].
  by rewrite (next_tokens_lookup t m p v), !or_zero_default in Hneg.
Qed.

Lemma X3_witness :
  message (NotFireableError "t0") = "'t0' is not fireable"
  ∧ ∃ p v, m0 example_model !! p = Some v
           ∧ v - default 0 (preconditions t0 !! p)
               + default 0 (postconditions t0 !! p) < 0.
Proof.
  destruct (X3_defaultFire_only_error t0 (m0 example_model)
              (NotFireableError "t0")) as (_ & Hmsg & Hplace).
  - vm_compute. reflexivity.
  - split; [exact Hmsg | exact Hplace].
Defined.

(** X4: when every input place of [t] is a place of [m] and no place is both
    an input and an output of [t], a firing that [defaultFire] accepts is
    one that [defaultIsFireable] announces. *)
Theorem X4_fire_implies_fireable (t : Transition) (m next : Marking) :
  dom (preconditions t) ⊆ dom m →
  dom (preconditions t) ## dom (postconditions t) →
  defaultFire t m = Returns next →
  defaultIsFireable t m = true.
Proof.
  intros Hin Hdisj [_ Hpos]%defaultFire_returns.
  apply defaultIsFireable_true. intros p w Hw.
  assert (p ∈ dom m) as [v Hv]%elem_of_dom.
  { apply Hin, elem_of_dom. by exists w. }
  exists v. split; [done |].
  specialize (Hpos p (ex_intro _ v Hv)).
  rewrite (next_tokens_lookup t m p v), !or_zero_default, Hw in Hpos by done.
  assert (postconditions t !! p = None) as Hnone.
  { apply not_elem_of_dom. intros Hp. apply (Hdisj p); [| done].
    apply elem_of_dom. by exists w. }
  rewrite Hnone in Hpos. simpl in Hpos. lia.
Qed.

Lemma X4_witness : defaultIsFireable t1 (m0 example_model) = true.
Proof.
  apply (X4_fire_implies_fireable t1 (m0 example_model)
           {[ "p0" := 0; "p1" := 2 ]}).
  - compute_done.
  - compute_done.
  - vm_compute. reflexivity.
Defined.

(** X5: firing is monotone.  If [defaultFire t m] returns and [m'] has the
    places of [m] with at least as many tokens in each, then
    [defaultFire t m'] returns too, and its result holds at least as many
    tokens in each place. *)
Theorem X5_defaultFire_monotone (t : Transition) (m m' next : Marking) :
  dom m' = dom m →
  (∀ p v v', m !! p = Some v → m' !! p = Some v' → v ≤ v') →
  defaultFire t m = Returns next →
  ∃ next',
    defaultFire t m' = Returns next'
    ∧ ∀ p v v', next !! p = Some v → next' !! p = Some v' → v ≤ v'.
Proof.
  intros Hdom Hle [-> Hpos]%defaultFire_returns.
  assert (∀ p v', m' !! p = Some v' → ∃ v, m !! p = Some v ∧ v ≤ v') as Hback.
  { intros p v' Hv'.
    assert (p ∈ dom m) as [v Hv]%elem_of_dom.
    { rewrite <- Hdom. apply elem_of_dom. by exists v'. }
    exists v. split; [done | by eapply Hle]. }
  destruct (defaultFire t m') as [next' | e] eqn:Hfire.
  - exists next'. split; [done |].
    apply defaultFire_returns in Hfire as [-> _].
    intros p v v'. rewrite !fired_lookup.
    destruct (m !! p) as [x|] eqn:Hx, (m' !! p) as [x'|] eqn:Hx';
      intros; simplify_eq/=.
    specialize (Hle p x x' Hx Hx'). lia.
  - exfalso.
    apply defaultFire_throws in Hfire as (_ & p & [v' Hv'] & Hneg).
    destruct (Hback p v' Hv') as (v & Hv & Hvv').
    specialize (Hpos p (ex_intro _ v Hv)).
    rewrite (next_tokens_lookup t m p v) in Hpos by done.
    rewrite (next_tokens_lookup t m' p v') in Hneg by done. lia.
Qed.

Lemma X5_witness :
  ∃ next',
    defaultFire t1 {[ "p0" := 3; "p1" := 0 ]} = Returns next'
    ∧ ∀ p v v', ({[ "p0" := 0; "p1" := 2 ]} : Marking) !! p = Some v →
                next' !! p = Some v' → v ≤ v'.
Proof.
  apply (X5_defaultFire_monotone t1 (m0 example_model)).
  - compute_done.
  - apply below_intro_weak. compute_done.
  - vm_compute. reflexivity.
Defined.

(** X6: [defaultIsFireable] is monotone: a transition that is fireable stays
    fireable in every marking that has the places of the first with at
    least as many tokens in each. *)
Theorem X6_defaultIsFireable_monotone (t : Transition) (m m' : Marking) :
  (∀ p v, m !! p = Some v → ∃ v', m' !! p = Some v' ∧ v ≤ v') →
  defaultIsFireable t m = true →
  defaultIsFireable t m' = true.
Proof.
  intros Hle Hfireable. apply defaultIsFireable_true. intros p w Hw.
  destruct (proj1 (defaultIsFireable_true t m) Hfireable p w Hw)
    as (v & Hv & Hwv).
  destruct (Hle p v Hv) as (v' & Hv' & Hvv').
  exists v'. split; [done | lia].
Qed.

Lemma X6_witness :
  defaultIsFireable t1 {[ "p0" := 3; "p1" := 0; "p2" := 5 ]} = true.
Proof.
  apply (X6_defaultIsFireable_monotone t1 (m0 example_model)).
  - apply below_intro. compute_done.
  - vm_compute. reflexivity.
Defined.

(** X7: two firings commute.  When [t] then [t'] and [t'] then [t] can both
    be fired from [m], the two orders end in the same marking. *)
Theorem X7_defaultFire_commute (t t' : Transition) (m m1 m2 m1' m2' : Marking) :
  defaultFire t m = Returns m1 → defaultFire t' m1 = Returns m2 →
  defaultFire t' m = Returns m1' → defaultFire t m1' = Returns m2' →
  m2 = m2'.
Proof.
  intros [-> _]%defaultFire_returns [-> _]%defaultFire_returns
         [-> _]%defaultFire_returns [-> _]%defaultFire_returns.
  apply map_eq. intros p. rewrite !fired_lookup.
  destruct (m !! p) as [v|]; simpl; [f_equal; lia | done].
Qed.

Lemma X7_witness :
  ({[ "p0" := 2; "p1" := 3 ]} : Marking) = {[ "p0" := 2; "p1" := 3 ]}.
Proof.
  apply (X7_defaultFire_commute t1 t0 {[ "p0" := 2; "p1" := 2 ]}
           {[ "p0" := 1; "p1" := 4 ]} _ {[ "p0" := 3; "p1" := 1 ]} _);
    vm_compute; reflexivity.
Defined.

(** ** The facade *)

Section FacadeMore.
Context {Binding : Type} `{EqDecision Binding}.
Implicit Types this : PetriNet Binding.


(** The two ways a [fire] ends. *)
Lemma PetriNet_fire_Throws (t : Transition) this this' (e : Error) :
  PetriNet_fire t this = (Throws e, this') → this' = this.
Proof.
  unfold PetriNet_fire, mbind, Method_bind, this_store_getState,
    this_fireSemantics, eval, this_store_dispatch, fireTransition.
  cbn.
  destruct (fire (fireSemantics this) t _ _) as [next | e'] eqn:Hfire;
    intros Heq; by simplify_eq.
Qed.

Lemma PetriNet_fire_Returns (t : Transition) this this' :
  PetriNet_fire t this = (Returns tt, this') →
  let b := match chooseBinding (fireSemantics this) with
           | Some choose => choose t (PetriNet_marking this)
           | None => None
           end in
  ∃ next,
    fire (fireSemantics this) t (PetriNet_marking this) b = Returns next
    ∧ this' = {| fireSemantics := fireSemantics this;
                 store := dispatch (FIRE t b next) (store this) |}.
Proof.
  unfold PetriNet_fire, mbind, Method_bind, this_store_getState,
    this_fireSemantics, eval, this_store_dispatch, fireTransition,
    PetriNet_marking.
  cbn.
  destruct (fire (fireSemantics this) t _ _) as [next | e] eqn:Hfire;
    intros Heq; simplify_eq.
  eauto.
Qed.

Lemma present_undoable_FIRE {A} `{EqDecision A} (R : A → Action Binding → A)
    (h : History A) (t : Transition) (b : option Binding) (next : Marking) :
  present (undoable R h (FIRE t b next)) = R (present h) (FIRE t b next).
Proof. apply undoable_FIRE. Qed.

(** X9: after a successful [fire(t)], [marking()] is the marking the fire
    function returned for the marking shown before and for the binding that
    [chooseBinding] chose ([null] without a [chooseBinding]); [sequence()]
    is the sequence shown before with one more entry, made of the name of
    [t] and of that binding; one [FIRE] action went to the store, and the
    model and the semantics are as before. *)
Theorem X9_fire_success (t : Transition) this this' :
  PetriNet_fire t this = (Returns tt, this') →
  let b := match chooseBinding (fireSemantics this) with
           | Some choose => choose t (PetriNet_marking this)
           | None => None
           end in
  fire (fireSemantics this) t (PetriNet_marking this) b
  = Returns (PetriNet_marking this')
  ∧ PetriNet_sequence this'
    = PetriNet_sequence this ++ [ {| transition := name t; binding := b |} ]
  ∧ dispatched (store this')
    = dispatched (store this) ++ [FIRE t b (PetriNet_marking this')]
  ∧ state_model (getState (store this')) = state_model (getState (store this))
  ∧ fireSemantics this' = fireSemantics this.
Proof.
  intros Hfire b.
  destruct (PetriNet_fire_Returns t this this' Hfire) as (next & Hnext & ->).
  fold b in Hnext.
  unfold PetriNet_marking, PetriNet_sequence in *.
  cbn [store getState dispatch reducers state_marking state_sequence
       state_model dispatched fireSemantics].
  rewrite !present_undoable_FIRE. done.
Qed.

Lemma undoable_FIRE_changed {A} `{EqDecision A} (R : A → Action Binding → A)
    (h : History A) (t : Transition) (b : option Binding) (next : Marking) :
  R (present h) (FIRE t b next) ≠ present h →
  undoable R h (FIRE t b next)
  = {| past := past h ++ [present h];
       present := R (present h) (FIRE t b next); future := [] |}.
Proof. intros Hne. cbn [undoable]. by rewrite decide_False. Qed.

(** X10: a [fire] that changes the marking is undone by one [undo]: the
    marking and the sequence are again what they were before the fire; and
    a [redo] then brings back the state of the store after the fire. *)
Theorem X10_fire_undo_redo (t : Transition) this this' :
  PetriNet_fire t this = (Returns tt, this') →
  PetriNet_marking this' ≠ PetriNet_marking this →
  let this_u := after PetriNet_undo this' in
  PetriNet_marking this_u = PetriNet_marking this
  ∧ PetriNet_sequence this_u = PetriNet_sequence this
  ∧ getState (store (after PetriNet_redo this_u)) = getState (store this').
Proof.
  intros Hfire Hchanged.
  destruct (PetriNet_fire_Returns t this this' Hfire) as (next & _ & ->).
  set (b := match chooseBinding (fireSemantics this) with
            | Some choose => choose t _
            | None => None
            end) in *.
  unfold PetriNet_marking, PetriNet_sequence, after, PetriNet_undo,
    PetriNet_redo, this_store_dispatch in *.
  cbn [snd store getState dispatch reducers state_marking state_sequence
       state_model] in *.
  rewrite present_undoable_FIRE in Hchanged.
  rewrite (undoable_FIRE_changed marking) by done.
  rewrite (undoable_FIRE_changed sequence) by apply sequence_FIRE_changes.
  cbn [undoable]. rewrite !undo_snoc. cbn [present].
  split; [done |]. split; [done |].
  unfold reducers. cbn [state_model state_marking state_sequence].
  rewrite (undoable_FIRE_changed marking) by done.
  rewrite (undoable_FIRE_changed sequence) by apply sequence_FIRE_changes.
  cbn [undoable]. rewrite !undo_snoc. reflexivity.
Qed.

(** *** Runs *)

Lemma after_fire (t : Transition) this :
  after (PetriNet_fire t) this = this
  ∨ ∃ b next,
      fire (fireSemantics this) t (PetriNet_marking this) b = Returns next
      ∧ after (PetriNet_fire t) this
        = {| fireSemantics := fireSemantics this;
             store := dispatch (FIRE t b next) (store this) |}.
Proof.
  unfold after.
  destruct (PetriNet_fire t this) as [[[] | e] this'] eqn:Hfire.
  - right. destruct (PetriNet_fire_Returns t this this' Hfire)
      as (next & Hnext & ->). eauto.
  - left. by apply PetriNet_fire_Throws in Hfire.
Qed.

(** A property of the simulator that every call of a run keeps holds after
    the run. *)
Lemma run_keeps (I : PetriNet Binding → Prop) (cs : list Call) this :
  (∀ c this, c ∈ cs → I this → I (after (call c) this)) →
  I this → I (run cs this).
Proof.
  revert this. induction cs as [|c cs IH]; intros this Hstep Hthis; [done |].
  cbn [run fold_left]. apply IH.
  - intros c' this' Hc'. apply Hstep. by right.
  - apply Hstep; [left | done].
Qed.

Lemma run_snoc (cs : list Call) (c : Call) this :
  run (cs ++ [c]) this = after (call c) (run cs this).
Proof. unfold run. by rewrite fold_left_app. Qed.

Lemma frames_undo {A} (h : History A) : frames (undo h) = frames h.
Proof.
  destruct h as [p y f]. destruct p as [|x l _] using rev_ind; [done |].
  rewrite undo_snoc. unfold frames. simpl. by rewrite <- app_assoc.
Qed.

Lemma frames_redo {A} (h : History A) : frames (redo h) = frames h.
Proof.
  destruct h as [p y [|x f]]; [done |].
  unfold redo, frames. simpl. by rewrite <- app_assoc.
Qed.

(** Whatever the action, the values of a frame are values it had, or the
    value the reducer has just computed. *)
Lemma Forall_frames_undoable {A} `{EqDecision A} (P : A → Prop)
    (R : A → Action Binding → A) (h : History A) (a : Action Binding) :
  Forall P (frames h) → P (R (present h) a) →
  Forall P (frames (undoable R h a)).
Proof.
  intros Hall Hnew.
  assert (Forall P (frames (if decide (R (present h) a = present h) then h
                            else {| past := past h ++ [present h];
                                    present := R (present h) a;
                                    future := [] |}))) as Hplain.
  { case_decide; [done |]. unfold frames in *. simpl.
    apply Forall_app in Hall as [Hp Hf]. apply Forall_cons in Hf as [Hy _].
    repeat (apply Forall_app; split); auto. }
  destruct a; cbn [undoable]; try done.
  - by rewrite frames_undo.
  - by rewrite frames_redo.
  - unfold frames in *. simpl.
    apply Forall_app in Hall as [_ Hf]. apply Forall_cons in Hf as [Hy _].
    by apply Forall_singleton.
Qed.

Lemma present_in_frames {A} (h : History A) : present h ∈ frames h.
Proof. unfold frames. apply elem_of_app. right. left. Qed.

(** The rule behind the invariants of the marking: along a run, every value
    of the frame of the marking satisfies a property that the initial
    marking has and that the fire function keeps. *)
Lemma run_marking_frames (P : Marking → Prop) (net : Model)
    (custom : CustomFireSemantics Binding) (cs : list Call) :
  let this_0 := PetriNet_constructor net custom in
  P (m0 net) →
  (∀ t m b next,
     CallFire t ∈ cs → P m →
     fire (fireSemantics this_0) t m b = Returns next → P next) →
  fireSemantics (run cs this_0) = fireSemantics this_0
  ∧ state_model (getState (store (run cs this_0))) = net
  ∧ Forall P (frames (state_marking (getState (store (run cs this_0))))).
Proof.
  intros this_0 Hinit Hfire.
  apply (run_keeps (λ this,
           fireSemantics this = fireSemantics this_0
           ∧ state_model (getState (store this)) = net
           ∧ Forall P (frames (state_marking (getState (store this)))))).
  - intros c this Hc (Hsem & Hmodel & Hall).
    destruct c as [t | |]; cbn [call].
    + destruct (after_fire t this) as [-> | (b & next & Hnext & ->)];
        [done |].
      cbn [fireSemantics store getState dispatch reducers state_marking
           state_model model].
      split; [done |]. split; [done |].
      apply Forall_frames_undoable; [done |]. cbn [marking].
      rewrite Hsem in Hnext. eapply Hfire; [done | | done].
      eapply Forall_forall; [exact Hall | apply present_in_frames].
    + unfold after, PetriNet_undo, this_store_dispatch.
      cbn [snd fireSemantics store getState dispatch reducers state_marking
           state_model model undoable].
      by rewrite frames_undo.
    + unfold after, PetriNet_redo, this_store_dispatch.
      cbn [snd fireSemantics store getState dispatch reducers state_marking
           state_model model undoable].
      by rewrite frames_redo.
  - subst this_0. rewrite getState_constructor.
    split; [done |]. split; [done |]. by apply Forall_singleton.
Qed.

(** X11: an invariance rule for the marking.  A property that the initial
    marking has, and that every marking returned by the fire function has
    when the marking it was given has it, holds of [marking()] after any
    calls of [fire], [undo] and [redo], in any order, failed fires
    included. *)
Theorem X11_marking_invariant (P : Marking → Prop) (net : Model)
    (custom : CustomFireSemantics Binding) (cs : list Call) :
  let this_0 := PetriNet_constructor net custom in
  P (m0 net) →
  (∀ t m b next,
     CallFire t ∈ cs → P m →
     fire (fireSemantics this_0) t m b = Returns next → P next) →
  P (PetriNet_marking (run cs this_0)).
Proof.
  intros this_0 Hinit Hfire.
  destruct (run_marking_frames P net custom cs Hinit Hfire) as (_ & _ & Hall).
  eapply Forall_forall; [exact Hall | apply present_in_frames].
Qed.

(** X12: no call changes the model or the semantics of a simulator: after
    any run the store still holds the model given to the constructor, and
    the three functions of the semantics are the ones chosen at
    construction. *)
Theorem X12_run_keeps_model (net : Model)
    (custom : CustomFireSemantics Binding) (cs : list Call) :
  let this_0 := PetriNet_constructor net custom in
  state_model (getState (store (run cs this_0))) = net
  ∧ fireSemantics (run cs this_0) = fireSemantics this_0.
Proof.
  intros this_0.
  destruct (run_marking_frames (λ _, True) net custom cs) as (? & ? & _);
    done.
Qed.

Lemma dom_fired (t : Transition) (m : Marking) : dom (fired t m) = dom m.
Proof.
  apply set_eq. intros p. rewrite !elem_of_dom, fired_lookup.
  by rewrite fmap_is_Some.
Qed.

(** X13: under the default semantics, after any run, [marking()] has
    exactly the places of the initial marking of the model; and if no entry
    of the initial marking is negative, no entry of [marking()] is. *)
Theorem X13_default_run_marking (net : Model)
    (custom : CustomFireSemantics Binding) (cs : list Call) :
  custom_fire custom = None →
  let this := run cs (PetriNet_constructor net custom) in
  dom (PetriNet_marking this) = dom (m0 net)
  ∧ ((∀ p v, m0 net !! p = Some v → 0 ≤ v) →
     ∀ p v, PetriNet_marking this !! p = Some v → 0 ≤ v).
Proof.
  intros Hdefault this.
  pose (P := λ m : Marking,
          dom m = dom (m0 net)
          ∧ ((∀ p v, m0 net !! p = Some v → 0 ≤ v) →
             ∀ p v, m !! p = Some v → 0 ≤ v)).
  destruct (run_marking_frames P net custom cs) as (_ & _ & Hall).
  - by split.
  - intros t m b next _ [Hdom Hpos]. cbn. rewrite Hdefault. cbn.
    intros [-> Hnext]%defaultFire_returns. split.
    + by rewrite dom_fired.
    + intros _ p v. rewrite fired_lookup.
      destruct (m !! p) as [x|] eqn:Hx; intros; simplify_eq/=.
      specialize (Hnext p (ex_intro _ x Hx)).
      by rewrite (next_tokens_lookup t m p x) in Hnext.
  - assert (P (PetriNet_marking this)) as HP.
    { eapply Forall_forall; [exact Hall | apply present_in_frames]. }
    exact HP.
Qed.

(** X14: token conservation along a run.  Under the default semantics, if
    every transition that a run fires takes and gives the same total weight,
    on places of the initial marking only, then after the run [marking()]
    holds as many tokens in all as the initial marking. *)
Theorem X14_conservative_run (net : Model)
    (custom : CustomFireSemantics Binding) (cs : list Call) :
  custom_fire custom = None →
  (∀ t, CallFire t ∈ cs →
     total (preconditions t) = total (postconditions t)
     ∧ dom (preconditions t) ⊆ dom (m0 net)
     ∧ dom (postconditions t) ⊆ dom (m0 net)) →
  total (PetriNet_marking (run cs (PetriNet_constructor net custom)))
  = total (m0 net).
Proof.
  intros Hdefault Hcons.
  pose (P := λ m : Marking, dom m = dom (m0 net) ∧ total m = total (m0 net)).
  destruct (run_marking_frames P net custom cs) as (_ & _ & Hall).
  - by split.
  - intros t m b next Ht [Hdom Htotal]. cbn. rewrite Hdefault. cbn.
    intros [-> _]%defaultFire_returns.
    destruct (Hcons t Ht) as (Hsame & Hpre & Hpost). split.
    + by rewrite dom_fired.
    + rewrite total_fired, !weight_over_total by by rewrite Hdom.
      lia.
  - assert (P (PetriNet_marking (run cs (PetriNet_constructor net custom))))
      as [_ HP]; [| exact HP].
    eapply Forall_forall; [exact Hall | apply present_in_frames].
Qed.

(** *** The sequence along a run *)

Lemma chain_extend {E} (p : list (list E)) (s : list E) (f : list (list E))
    (e : E) :
  chain (p ++ s :: f) → chain ((p ++ [s]) ++ [s ++ [e]]).
Proof.
  intros Hchain i x y Hx Hy.
  destruct (decide (S i < length (p ++ [s]))%nat) as [Hlt | Hge].
  - rewrite lookup_app_l in Hx by lia.
    rewrite lookup_app_l in Hy by done.
    apply (Hchain i).
    + rewrite cons_middle, app_assoc, lookup_app_l by lia. done.
    + rewrite cons_middle, app_assoc, lookup_app_l by done. done.
  - rewrite length_app in Hge. simpl in Hge.
    assert (i = length p ∨ length p < i)%nat as [-> | Hgt] by lia.
    + rewrite lookup_app_l in Hx by (rewrite length_app; simpl; lia).
      rewrite list_lookup_middle in Hx by done.
      rewrite lookup_app_r in Hy by (rewrite length_app; simpl; lia).
      rewrite length_app in Hy. simpl in Hy.
      replace (S (length p) - (length p + 1))%nat with 0%nat in Hy by lia.
      simplify_eq/=. split.
      * intros Heq. apply (f_equal length) in Heq.
        rewrite length_app in Heq. simpl in Heq. lia.
      * apply removelast_last.
    + apply lookup_lt_Some in Hy.
      rewrite !length_app in Hy. simpl in Hy. lia.
Qed.

Lemma run_sequence_chain (net : Model)
    (custom : CustomFireSemantics Binding) (cs : list Call) :
  let h := state_sequence (getState (store (run cs (PetriNet_constructor net custom)))) in
  chain (frames h) ∧ frames h !! 0%nat = Some [].
Proof.
  apply (run_keeps (λ this,
           let h := state_sequence (getState (store this)) in
           chain (frames h) ∧ frames h !! 0%nat = Some [])).
  - intros c this _ [Hchain Hhead].
    destruct c as [t | |]; cbn [call].
    + destruct (after_fire t this) as [-> | (b & next & _ & ->)]; [done |].
      cbn [store getState dispatch reducers state_sequence undoable].
      rewrite decide_False by apply sequence_FIRE_changes.
      destruct (state_sequence (getState (store this))) as [p s f].
      unfold frames in *. cbn [past present future sequence] in *.
      split; [by eapply chain_extend |].
      by destruct p.
    + unfold after, PetriNet_undo, this_store_dispatch.
      cbn [snd store getState dispatch reducers state_sequence undoable].
      by rewrite frames_undo.
    + unfold after, PetriNet_redo, this_store_dispatch.
      cbn [snd store getState dispatch reducers state_sequence undoable].
      by rewrite frames_redo.
  - rewrite getState_constructor. cbn. split; [| done].
    intros i x y _ Hy. by destruct i.
Qed.

(** X15: after any run, one [undo] takes away exactly the last entry of
    [sequence()]; on an empty sequence it does nothing to it. *)
Theorem X15_undo_drops_last_entry (net : Model)
    (custom : CustomFireSemantics Binding) (cs : list Call) :
  let this := run cs (PetriNet_constructor net custom) in
  PetriNet_sequence (after PetriNet_undo this)
  = removelast (PetriNet_sequence this).
Proof.
  intros this.
  destruct (run_sequence_chain net custom cs) as [Hchain Hhead].
  fold this in Hchain, Hhead.
  unfold PetriNet_sequence, after, PetriNet_undo, this_store_dispatch.
  cbn [snd store getState dispatch reducers state_sequence undoable].
  destruct (state_sequence (getState (store this))) as [p s f].
  unfold frames in *. cbn [past present future] in *.
  destruct p as [|x l _] using rev_ind.
  - simpl in Hhead. by simplify_eq.
  - rewrite undo_snoc. cbn [present].
    destruct (Hchain (length l) x s) as [_ Hlast]; [| | done].
    + rewrite lookup_app_l by (rewrite length_app; simpl; lia).
      by rewrite list_lookup_middle.
    + rewrite list_lookup_middle; [done |]. rewrite length_app. simpl. lia.
Qed.

End FacadeMore.

(** *** The facade on the example model *)

Lemma X9_witness :
  defaultFire t1 (PetriNet_marking example_net)
  = Returns (PetriNet_marking (after (PetriNet_fire t1) example_net))
  ∧ PetriNet_sequence (after (PetriNet_fire t1) example_net)
    = PetriNet_sequence example_net
        ++ [ {| transition := "t1"; binding := None |} ].
Proof.
  destruct (X9_fire_success t1 example_net
              (after (PetriNet_fire t1) example_net))
    as (Hmarking & Hsequence & _).
  - apply call_eta. vm_compute. reflexivity.
  - split; [exact Hmarking | exact Hsequence].
Defined.

Lemma X10_witness :
  let this' := after (PetriNet_fire t1) example_net in
  PetriNet_marking (after PetriNet_undo this') = PetriNet_marking example_net
  ∧ PetriNet_sequence (after PetriNet_undo this')
    = PetriNet_sequence example_net
  ∧ getState (store (after PetriNet_redo (after PetriNet_undo this')))
    = getState (store this').
Proof.
  apply (X10_fire_undo_redo t1 example_net).
  - apply call_eta. vm_compute. reflexivity.
  - markings_differ_at "p0".
Defined.

Lemma X11_witness :
  dom (PetriNet_marking
         (run [CallFire t1; CallFire t1; CallUndo; CallFire t0] example_net))
  = dom (m0 example_model).
Proof.
  apply (X11_marking_invariant (λ m, dom m = dom (m0 example_model))
           example_model no_custom).
  - reflexivity.
  - intros t m b next _ Hdom [-> _]%defaultFire_returns.
    by rewrite dom_fired.
Defined.

Lemma X13_witness :
  let this := run [CallFire t1; CallUndo; CallFire t0; CallRedo] example_net in
  dom (PetriNet_marking this) = dom (m0 example_model)
  ∧ ∀ p v, PetriNet_marking this !! p = Some v → 0 ≤ v.
Proof.
  destruct (X13_default_run_marking (Binding := unit) example_model no_custom
              [CallFire t1; CallUndo; CallFire t0; CallRedo])
    as [Hdom Hpos].
  - reflexivity.
  - split; [exact Hdom |]. apply Hpos.
    change (map_Forall (λ _ v, 0 ≤ v) (m0 example_model)). compute_done.
Defined.

Lemma X14_witness :
  total (PetriNet_marking
           (run [CallFire t0; CallUndo; CallFire t0; CallFire t0]
              (PetriNet_constructor (Binding := unit)
                 {| places := ["p0"; "p1"]; transitions := [t1; t0];
                    m0 := {[ "p0" := 0; "p1" := 2 ]} |}
                 no_custom)))
  = 2.
Proof.
  rewrite X14_conservative_run.
  - vm_compute. reflexivity.
  - reflexivity.
  - intros t Ht.
    assert (t = t0) as ->.
    { repeat (apply elem_of_cons in Ht as [Ht | Ht]; [by simplify_eq |]).
      by apply elem_of_nil in Ht. }
    repeat split; compute_done.
Defined.

(** ** The graph drawn by [render] *)

Lemma fold_left_concat {A} (ls : list (list A)) (acc : list A) :
  fold_left (λ partialResult e, partialResult ++ e) ls acc = acc ++ concat ls.
Proof.
  revert acc. induction ls as [|l ls IH]; intros acc; simpl.
  - by rewrite app_nil_r.
  - by rewrite IH, app_assoc.
Qed.

(** Where [reduce] returns, it returns the concatenation of the edges of
    the transitions. *)
Lemma render_edges_Some (model : Model) (es : list Edge.t) :
  render_edges model = Some es →
  transitions model ≠ [] ∧ es = concat (map transition_edges (transitions model)).
Proof.
  unfold render_edges, reduce.
  destruct (transitions model) as [|t ts]; [done |].
  simpl. intros [= <-]. split; [done |]. apply fold_left_concat.
Qed.

Lemma elem_of_concat {A} (x : A) (ls : list (list A)) :
  x ∈ concat ls ↔ ∃ l, l ∈ ls ∧ x ∈ l.
Proof.
  induction ls as [|l ls IH]; simpl.
  - split; [by intros ?%elem_of_nil | by intros (? & ?%elem_of_nil & _)].
  - rewrite elem_of_app, IH. split.
    + intros [Hx | (l' & Hl' & Hx)]; [exists l; split; [left | done] |].
      exists l'. split; [by right | done].
    + intros (l' & [-> | Hl']%elem_of_cons & Hx); [by left |].
      right. by exists l'.
Qed.

Lemma elem_of_transition_edges (t : Transition) (e : Edge.t) :
  e ∈ transition_edges t ↔
  (∃ place w,
     preconditions t !! place = Some w
     ∧ e = {| Edge.id := place +:+ name t; Edge.source := place;
              Edge.target := name t; Edge.label := Some w |})
  ∨ (∃ place w,
       postconditions t !! place = Some w
       ∧ e = {| Edge.id := name t +:+ place; Edge.source := name t;
                Edge.target := place; Edge.label := Some w |}).
Proof.
  unfold transition_edges. rewrite elem_of_app, !list_elem_of_fmap.
  split.
  - intros [(place & -> & [w Hw]%elem_of_Object_keys)
           | (place & -> & [w Hw]%elem_of_Object_keys)].
    + left. exists place, w. by rewrite Hw.
    + right. exists place, w. by rewrite Hw.
  - intros [(place & w & Hw & ->) | (place & w & Hw & ->)].
    + left. exists place. rewrite Hw. split; [done |].
      apply elem_of_Object_keys. by exists w.
    + right. exists place. rewrite Hw. split; [done |].
      apply elem_of_Object_keys. by exists w.
Qed.

(** X16: the computation of the edges throws exactly on a model without
    transitions: [reduce] is called without an initial value, which is an
    error on an empty array. *)
Theorem X16_render_edges_throws (model : Model) :
  render_edges model = None ↔ transitions model = [].
Proof.
  unfold render_edges, reduce.
  by destruct (transitions model).
Qed.

(** X17: when the edges are computed, they are the arcs of the model and
    nothing else: one edge from the place to the transition for every
    entry of the preconditions of a transition, one from the transition to
    the place for every entry of its postconditions, each labelled with the
    weight of the entry and named after its two ends. *)
Theorem X17_render_edges_arcs (model : Model) (es : list Edge.t) (e : Edge.t) :
  render_edges model = Some es →
  (e ∈ es ↔
   ∃ t, t ∈ transitions model
        ∧ ((∃ place w,
              preconditions t !! place = Some w
              ∧ e = {| Edge.id := place +:+ name t; Edge.source := place;
                       Edge.target := name t; Edge.label := Some w |})
           ∨ (∃ place w,
                postconditions t !! place = Some w
                ∧ e = {| Edge.id := name t +:+ place; Edge.source := name t;
                         Edge.target := place; Edge.label := Some w |}))).
Proof.
  intros [_ ->]%render_edges_Some.
  rewrite elem_of_concat. split.
  - intros (l & (t & -> & Ht)%list_elem_of_fmap & He).
    exists t. split; [done |]. by apply elem_of_transition_edges.
  - intros (t & Ht & He). exists (transition_edges t). split.
    + apply list_elem_of_fmap. by exists t.
    + by apply elem_of_transition_edges.
Qed.

Lemma length_Object_keys (o : gmap string Z) : length (Object_keys o) = size o.
Proof. unfold Object_keys. by rewrite length_fmap, length_map_to_list. Qed.

(** X18: the number of edges is the number of entries of the preconditions
    and of the postconditions of all the transitions: arcs are never merged
    or dropped. *)
Theorem X18_render_edges_count (model : Model) (es : list Edge.t) :
  render_edges model = Some es →
  length es
  = sum_list ((λ t, (size (preconditions t) + size (postconditions t))%nat)
                <$> transitions model).
Proof.
  intros [_ ->]%render_edges_Some.
  induction (transitions model) as [|t ts IH]; [done |].
  simpl. rewrite length_app, IH. f_equal.
  unfold transition_edges.
  by rewrite length_app, !length_map, !length_Object_keys.
Qed.

Section RenderFacts.
Context {Layout : Type}.
Implicit Types v vertex prev : Vertex.t Layout.
Implicit Types updated vertices : list (Vertex.t Layout).

Lemma ids_render_vertices (model : Model) :
  Vertex.id <$> render_vertices (Layout := Layout) model
  = places model ++ (name <$> transitions model).
Proof.
  unfold render_vertices. rewrite fmap_app. f_equal.
  - induction (places model) as [|p ps IH]; simpl in *; [done | by f_equal].
  - induction (transitions model) as [|t ts IH]; simpl in *; [done | by f_equal].
Qed.

(** X19: when every place named by the preconditions and the postconditions
    of the transitions is a place of the model, every edge joins two
    vertices of the graph. *)
Theorem X19_edges_join_vertices (model : Model) (es : list Edge.t) :
  (∀ t p, t ∈ transitions model →
          is_Some (preconditions t !! p) ∨ is_Some (postconditions t !! p) →
          p ∈ places model) →
  render_edges model = Some es →
  ∀ e, e ∈ es →
    Edge.source e ∈ Vertex.id <$> render_vertices (Layout := Layout) model
    ∧ Edge.target e ∈ Vertex.id <$> render_vertices (Layout := Layout) model.
Proof.
  intros Hplaces [_ ->]%render_edges_Some e
    (l & (t & -> & Ht)%list_elem_of_fmap & He)%elem_of_concat.
  rewrite ids_render_vertices, !elem_of_app.
  assert (name t ∈ name <$> transitions model) as Hname.
  { apply list_elem_of_fmap. by exists t. }
  apply elem_of_transition_edges in He
    as [(place & w & Hw & ->) | (place & w & Hw & ->)]; simpl.
  - split; [left | by right]. apply (Hplaces t); [done |]. left. by exists w.
  - split; [by right | left]. apply (Hplaces t); [done |]. right. by exists w.
Qed.

(** The ids after one step of the loop: the id of the new vertex is added
    at the end unless it is there already. *)
Lemma ids_update_vertex updated vertex :
  Vertex.id <$> update_vertex updated vertex
  = if decide (Vertex.id vertex ∈ Vertex.id <$> updated)
    then Vertex.id <$> updated
    else (Vertex.id <$> updated) ++ [Vertex.id vertex].
Proof.
  unfold update_vertex.
  destruct (list_find _ updated) as [[i prev]|] eqn:Hfind.
  - apply list_find_Some in Hfind as (Hi & Hid & _).
    rewrite decide_True.
    + rewrite list_fmap_insert. apply list_insert_id.
      rewrite list_lookup_fmap, Hi. simpl. by rewrite Hid.
    + apply list_elem_of_fmap. exists prev. split; [done |].
      by eapply list_elem_of_lookup_2.
  - apply list_find_None in Hfind.
    rewrite decide_False; [by rewrite fmap_app |].
    intros (v & Hv & Hin)%list_elem_of_fmap.
    eapply Forall_forall in Hfind; [| done]. by apply Hfind.
Qed.

(** One step of the loop keeps every bound vertex at its index, with its id;
    a new vertex without layout leaves the layout of the bound vertices as
    it is. *)
Lemma update_vertex_keeps updated vertex (i : nat) v :
  updated !! i = Some v →
  ∃ v', update_vertex updated vertex !! i = Some v'
        ∧ Vertex.id v' = Vertex.id v
        ∧ (Vertex.layout vertex = None → Vertex.layout v' = Vertex.layout v).
Proof.
  intros Hv. unfold update_vertex.
  destruct (list_find _ updated) as [[j prev]|] eqn:Hfind.
  - apply list_find_Some in Hfind as (Hj & Hid & _).
    destruct (decide (i = j)) as [-> | Hne].
    + exists (assign prev vertex).
      rewrite list_lookup_insert_eq by by eapply lookup_lt_Some.
      simplify_eq. split; [done |]. split; [done |].
      intros Hnone. simpl. by rewrite Hnone.
    + exists v. by rewrite list_lookup_insert_ne.
  - exists v. split; [| done]. apply lookup_app_l_Some. done.
Qed.

(** X20: the merge keeps what the drawing library computed.  Every vertex
    already bound to the drawing stays at its index with its id and its
    layout; the vertices of the model only update the other properties. *)
Theorem X20_update_vertices_keeps_layout (model : Model) updated (i : nat) v :
  updated !! i = Some v →
  ∃ v', update_vertices updated (render_vertices model) !! i = Some v'
        ∧ Vertex.id v' = Vertex.id v
        ∧ Vertex.layout v' = Vertex.layout v.
Proof.
  unfold update_vertices.
  assert (Forall (λ vertex, Vertex.layout vertex = None)
            (render_vertices (Layout := Layout) model)) as Hnone.
  { unfold render_vertices. apply Forall_app. split; by apply Forall_fmap, Forall_true. }
  revert updated v.
  induction (render_vertices model) as [|vertex vertices IH];
    intros updated v Hv; simpl.
  - by exists v.
  - apply Forall_cons in Hnone as [Hvertex Hnone].
    destruct (update_vertex_keeps updated vertex i v Hv)
      as (v1 & Hv1 & Hid1 & Hlayout1).
    destruct (IH Hnone _ _ Hv1) as (v' & Hv' & Hid' & Hlayout').
    exists v'. split; [done |]. split; [congruence |].
    rewrite Hlayout'. by apply Hlayout1.
Qed.

Lemma ids_update_vertices updated vertices :
  (∀ x, x ∈ Vertex.id <$> update_vertices updated vertices
        ↔ x ∈ Vertex.id <$> updated ∨ x ∈ Vertex.id <$> vertices)
  ∧ (NoDup (Vertex.id <$> updated) →
     NoDup (Vertex.id <$> update_vertices updated vertices)).
Proof.
  unfold update_vertices. revert updated.
  induction vertices as [|vertex vertices IH]; intros updated; simpl.
  - split; [| done]. intros x. rewrite elem_of_nil. tauto.
  - destruct (IH (update_vertex updated vertex)) as [Hin Hnodup].
    pose proof (ids_update_vertex updated vertex) as Hids.
    split.
    + intros x. rewrite Hin, Hids, elem_of_cons.
      case_decide as Hold.
      * split; [tauto |]. intros [? | [-> | ?]]; tauto.
      * rewrite elem_of_app, list_elem_of_singleton. tauto.
    + intros Hnd. apply Hnodup. rewrite Hids.
      case_decide as Hold; [done |].
      apply NoDup_app. split; [done |]. split.
      * intros x Hx ->%list_elem_of_singleton. done.
      * apply NoDup_singleton.
Qed.

(** X21: after the merge the graph has a vertex for every id bound before
    and for every place and every transition of the model, and no other;
    and if the ids bound before were distinct, the ids are distinct after
    the merge, even when a place and a transition of the model share a
    name. *)
Theorem X21_update_vertices_ids (model : Model) updated :
  (∀ x, x ∈ Vertex.id <$> update_vertices updated (render_vertices model)
        ↔ x ∈ Vertex.id <$> updated
          ∨ x ∈ places model ∨ x ∈ name <$> transitions model)
  ∧ (NoDup (Vertex.id <$> updated) →
     NoDup (Vertex.id <$> update_vertices updated (render_vertices model))).
Proof.
  destruct (ids_update_vertices updated (render_vertices model)) as [Hin Hnd].
  split; [| done].
  intros x. by rewrite Hin, ids_render_vertices, elem_of_app.
Qed.

Lemma ids_update_vertices_present updated vertices :
  (∀ vertex, vertex ∈ vertices → Vertex.id vertex ∈ Vertex.id <$> updated) →
  Vertex.id <$> update_vertices updated vertices = Vertex.id <$> updated.
Proof.
  unfold update_vertices. revert updated.
  induction vertices as [|vertex vertices IH]; intros updated Hall; [done |].
  simpl.
  assert (Vertex.id <$> update_vertex updated vertex = Vertex.id <$> updated)
    as Hstep.
  { rewrite ids_update_vertex. rewrite decide_True; [done |]. apply Hall. left. }
  rewrite IH; [done |].
  intros v Hv. rewrite Hstep. apply Hall. by right.
Qed.

(** X22: rendering again adds nothing.  Merging the vertices of a model
    into the result of a merge of the same model keeps the list of ids as
    it is: no vertex is added, none moves. *)
Theorem X22_update_vertices_again (model : Model) updated :
  let bound := update_vertices updated (render_vertices model) in
  Vertex.id <$> update_vertices bound (render_vertices model)
  = Vertex.id <$> bound.
Proof.
  intros bound. apply ids_update_vertices_present.
  intros vertex Hvertex.
  apply (proj1 (ids_update_vertices updated (render_vertices model))).
  right. apply list_elem_of_fmap. by exists vertex.
Qed.

End RenderFacts.

Lemma X17_witness :
  {| Edge.id := "p0t1"; Edge.source := "p0"; Edge.target := "t1";
     Edge.label := Some 1 |}
  ∈ default [] (render_edges example_model).
Proof.
  apply (X17_render_edges_arcs example_model); [vm_compute; reflexivity |].
  exists t1. split; [left |]. left. by exists "p0", 1.
Defined.

Lemma X18_witness :
  length (default [] (render_edges example_model)) = 4%nat.
Proof.
  rewrite (X18_render_edges_count example_model); vm_compute; reflexivity.
Defined.

Lemma X19_witness :
  Forall
    (λ e, Edge.source e ∈ Vertex.id <$> render_vertices (Layout := unit) example_model
          ∧ Edge.target e ∈ Vertex.id <$> render_vertices (Layout := unit) example_model)
    (default [] (render_edges example_model)).
Proof.
  apply Forall_forall.
  apply (X19_edges_join_vertices example_model); [| vm_compute; reflexivity].
  intros t p [-> | [-> | []%elem_of_nil]%elem_of_cons]%elem_of_cons
    [[w Hw] | [w Hw]];
    unfold t1, t0 in Hw; cbn in Hw;
    apply lookup_singleton_Some in Hw as [<- _]; compute_done.
Defined.

Lemma X20_witness :
  ∃ v', update_vertices
          [ {| Vertex.id := "t0"; Vertex.type := "transition";
               Vertex.data := Some t0; Vertex.layout := Some (3, 4) |} ]
          (render_vertices example_model) !! 0%nat = Some v'
        ∧ Vertex.id v' = "t0"
        ∧ Vertex.layout v' = Some (3, 4).
Proof.
  apply (X20_update_vertices_keeps_layout example_model
           [ {| Vertex.id := "t0"; Vertex.type := "transition";
                Vertex.data := Some t0; Vertex.layout := Some (3, 4) |} ]
           0%nat
           {| Vertex.id := "t0"; Vertex.type := "transition";
              Vertex.data := Some t0; Vertex.layout := Some (3, 4) |}).
  reflexivity.
Defined.

Lemma X21_witness :
  NoDup (Vertex.id <$> update_vertices (Layout := unit) []
                         (render_vertices example_model)).
Proof.
  apply (proj2 (X21_update_vertices_ids example_model [])). constructor.
Defined.

(** ** Firing on a simulator with the default semantics *)

Section DefaultSimulator.
Context {Binding : Type} `{EqDecision Binding}.
Implicit Types this : PetriNet Binding.

Lemma defaultFire_when_non_negative (t : Transition) (m : Marking) :
  (∀ p v, m !! p = Some v →
     0 ≤ v - default 0 (preconditions t !! p)
           + default 0 (postconditions t !! p)) →
  defaultFire t m = Returns (fired t m).
Proof.
  intros Hpos.
  destruct (defaultFire t m) as [next | e] eqn:Hfire.
  - by apply defaultFire_returns in Hfire as [-> _].
  - apply defaultFire_throws in Hfire as (_ & p & [v Hv] & Hneg).
    rewrite (next_tokens_lookup t m p v), !or_zero_default in Hneg by done.
    specialize (Hpos p v Hv). lia.
Qed.

(** How a [fire] completes, read off the fire function. *)
Lemma outcome_fire (t : Transition) this :
  outcome (PetriNet_fire t) this
  = match fire (fireSemantics this) t (PetriNet_marking this)
            match chooseBinding (fireSemantics this) with
            | Some choose => choose t (PetriNet_marking this)
            | None => None
            end with
    | Returns _ => Returns tt
    | Throws e => Throws e
    end.
Proof.
  unfold outcome, PetriNet_fire, mbind, Method_bind, this_store_getState,
    this_fireSemantics, eval, this_store_dispatch, fireTransition,
    PetriNet_marking.
  cbn. by destruct (fire (fireSemantics this) t _ _).
Qed.

Lemma run_default_fire (net : Model) (custom : CustomFireSemantics Binding)
    (cs : list Call) :
  custom_fire custom = None →
  fire (fireSemantics (run cs (PetriNet_constructor net custom)))
  = λ t marking _, defaultFire t marking.
Proof.
  intros Hdefault.
  destruct (run_marking_frames (λ _, True) net custom cs) as (-> & _ & _);
    [done | done |].
  cbn. by rewrite Hdefault.
Qed.

(** X23: on a simulator built without a fire function of its own, after any
    run, [fire(t)] succeeds exactly when no place of the marking shown would
    go below zero; otherwise it throws the error that says [t] is not
    fireable and leaves the simulator as it was. *)
Theorem X23_default_fire_outcome (net : Model)
    (custom : CustomFireSemantics Binding) (cs : list Call) (t : Transition) :
  custom_fire custom = None →
  let this := run cs (PetriNet_constructor net custom) in
  (outcome (PetriNet_fire t) this = Returns tt ↔
   ∀ p v, PetriNet_marking this !! p = Some v →
     0 ≤ v - default 0 (preconditions t !! p)
           + default 0 (postconditions t !! p))
  ∧ (outcome (PetriNet_fire t) this ≠ Returns tt →
     outcome (PetriNet_fire t) this = Throws (NotFireableError (name t))
     ∧ after (PetriNet_fire t) this = this).
Proof.
  intros Hdefault this.
  pose proof (outcome_fire t this) as Hout.
  unfold this in Hout at 2. rewrite (run_default_fire net custom cs Hdefault) in Hout.
  fold this in Hout.
  destruct (defaultFire t (PetriNet_marking this)) as [next | e] eqn:Hfire.
  - split; [| by rewrite Hout].
    split; [| by rewrite Hout].
    intros _ p v Hv.
    apply defaultFire_returns in Hfire as [_ Hpos].
    specialize (Hpos p (ex_intro _ v Hv)).
    by rewrite (next_tokens_lookup t _ p v), !or_zero_default in Hpos.
  - pose proof Hfire as (-> & p & [v Hv] & Hneg)%defaultFire_throws.
    rewrite (next_tokens_lookup t _ p v), !or_zero_default in Hneg by done.
    split.
    + rewrite Hout. split; [done |].
      intros Hpos. specialize (Hpos p v Hv). lia.
    + intros _. split; [done |].
      unfold after, outcome in *.
      destruct (PetriNet_fire t this) as [c this'] eqn:Hcall.
      simpl in Hout. subst c. by apply PetriNet_fire_Throws in Hcall.
Qed.

(** X24: what is shown as fireable can be fired.  On a simulator with the
    default semantics whose initial marking has no negative entry, after any
    run, a transition with no negative output weight that
    [defaultIsFireable] accepts in the marking shown is fired by [fire]
    without an error. *)
Theorem X24_fireable_can_fire (net : Model)
    (custom : CustomFireSemantics Binding) (cs : list Call) (t : Transition) :
  custom_fire custom = None →
  (∀ p v, m0 net !! p = Some v → 0 ≤ v) →
  (∀ p w, postconditions t !! p = Some w → 0 ≤ w) →
  let this := run cs (PetriNet_constructor net custom) in
  defaultIsFireable t (PetriNet_marking this) = true →
  outcome (PetriNet_fire t) this = Returns tt.
Proof.
  intros Hdefault Hinit Hpost this Hfireable.
  assert (∀ p v, PetriNet_marking this !! p = Some v → 0 ≤ v) as Hmarking.
  { pose (P := λ m : Marking, ∀ p v, m !! p = Some v → 0 ≤ v).
    destruct (run_marking_frames P net custom cs) as (_ & _ & Hall).
    - done.
    - intros t' m b next _ _. cbn. rewrite Hdefault. cbn.
      intros [-> Hnext]%defaultFire_returns p v. rewrite fired_lookup.
      destruct (m !! p) as [x|] eqn:Hx; intros; simplify_eq/=.
      specialize (Hnext p (ex_intro _ x Hx)).
      by rewrite (next_tokens_lookup t' m p x) in Hnext.
    - assert (P (PetriNet_marking this)) as HP; [| exact HP].
      eapply Forall_forall; [exact Hall | apply present_in_frames]. }
  rewrite outcome_fire.
  unfold this at 1. rewrite (run_default_fire net custom cs Hdefault).
  fold this.
  rewrite defaultFire_when_non_negative; [done |].
  intros p v Hv.
  assert (0 ≤ default 0 (postconditions t !! p)) as Hq.
  { destruct (postconditions t !! p) as [w|] eqn:Hw; simpl; [eauto | lia]. }
  destruct (preconditions t !! p) as [w|] eqn:Hw; simpl.
  - destruct (proj1 (defaultIsFireable_true t _) Hfireable p w Hw)
      as (v' & Hv' & Hle).
    simplify_eq. lia.
  - specialize (Hmarking p v Hv). lia.
Qed.

End DefaultSimulator.

Lemma X23_witness :
  let this := run [CallFire t1] example_net in
  outcome (PetriNet_fire t0) this = Returns tt
  ∧ outcome (PetriNet_fire t1) this = Throws (NotFireableError "t1")
  ∧ after (PetriNet_fire t1) this = this.
Proof.
  intros this.
  destruct (X23_default_fire_outcome (Binding := unit) example_model no_custom
              [CallFire t1] t0) as [Hiff _]; [reflexivity |].
  destruct (X23_default_fire_outcome (Binding := unit) example_model no_custom
              [CallFire t1] t1) as [_ Hthrows]; [reflexivity |].
  split.
  - apply Hiff.
    change (map_Forall
              (λ p v, 0 ≤ v - default 0 (preconditions t0 !! p)
                            + default 0 (postconditions t0 !! p))
              (PetriNet_marking this)).
    compute_done.
  - apply Hthrows. vm_compute. discriminate.
Defined.

Lemma X24_witness :
  outcome (PetriNet_fire t0) (run [CallFire t1; CallFire t0] example_net)
  = Returns tt.
Proof.
  apply (X24_fireable_can_fire (Binding := unit) example_model no_custom
           [CallFire t1; CallFire t0] t0).
  - reflexivity.
  - change (map_Forall (λ _ v, 0 ≤ v) (m0 example_model)). compute_done.
  - change (map_Forall (λ _ w, 0 ≤ w) (postconditions t0)). compute_done.
  - vm_compute. reflexivity.
Defined.
